(** * RedCar workshop app: the local data store

    A shallow embedding of [providers/data-provider.tsx] (the [DataProvider]
    React context that owns the five collections) and of the entity types of
    [types/entities.ts], followed by the properties of the store that the
    specification states.

    Conventions of the embedding
    - A record is a JavaScript object whose fields are scalars: a finite map
      from property names to [JsValue].  An optional field can be missing,
      present with the value [undefined], or present with a value; object
      spread tells the three apart, so the map keeps them apart as well.
    - A collection ([Part[]], [Revision[]], ...) is a list of records.
    - [generateId()] and [nowIso()] read the environment (random source,
      clock): what [generateId] reads, and the time stamp that [nowIso]
      returns, are arguments of the operations that call them.
    - [AsyncStorage] is a map from keys to strings whose reads and writes can
      be rejected; a rejected call leaves the stored items as they were.
    - The React state is typed: it holds lists of records, and the
      operations of the store are defined on it.  [loadCollection] casts what
      [JSON.parse] returns without a check; a parsed value that is not an
      array of records is told apart ([Verbatim]).  The types are erased at
      run time: [Runtime.State] is the state that can hold such a value, and
      [bootstrap] commits to it whatever the loads return.
    - The state updates that one task queues are committed together, and the
      effects of a commit run after it. *)

From Stdlib Require Import ZArith String Ascii DecimalN DecimalFacts.
From stdpp Require Import gmap strings pretty list fin_maps.

(** ** Values *)

(** A JavaScript [number].  The store never computes on numeric fields: it
    keeps them, compares nothing but identities, and prints them to JSON.  A
    finite number is kept as the decimal numeral [m / 10^scale]; the three
    non-finite values are the ones JSON cannot write. *)
Inductive JsNumber :=
| Decimal (m : Z) (scale : nat)
| NaN
| PosInfinity
| NegInfinity.

Inductive JsValue :=
| VUndefined
| VNull
| VBoolean (b : bool)
| VNumber (n : JsNumber)
| VString (s : string).

#[global] Instance JsNumber_eq_dec : EqDecision JsNumber.
Proof. solve_decision. Defined.

#[global] Instance JsValue_eq_dec : EqDecision JsValue.
Proof. solve_decision. Defined.

Abbreviation JsObject := (gmap string JsValue).
Abbreviation Collection := (list (gmap string JsValue)).

(** [o.k]: reading a property that the object does not have gives
    [undefined]. *)
Definition get (o : JsObject) (k : string) : JsValue :=
  default VUndefined (o !! k).

(** [{ ...target, ...src }]: the own properties of [src] are copied over
    those of [target]. *)
Definition spread (target src : JsObject) : JsObject := src ∪ target.

(** [item.id === id], for [id : string]. *)
Definition id_is (id : string) (item : JsObject) : bool :=
  bool_decide (get item "id" = VString id).

(** ** Entity types ([types/entities.ts]) *)

Inductive Entity := Part | Revision | TeamMember | Client | Supplier.

#[global] Instance Entity_eq_dec : EqDecision Entity.
Proof. solve_decision. Defined.

Inductive FieldKind :=
| KString
| KNumber
| KBoolean
| KOneOf (literals : list string).

Record Field := mkField {
  fname : string;
  fkind : FieldKind;
  foptional : bool
}.

Definition required (k : string) (t : FieldKind) : Field := mkField k t false.
Definition optional (k : string) (t : FieldKind) : Field := mkField k t true.

Definition entity_fields (e : Entity) : list Field :=
  match e with
  | Part =>
      [ required "id" KString; required "name" KString; required "code" KString;
        required "quantity" KNumber; required "minStock" KNumber;
        required "location" KString; required "supplier" KString;
        required "category"
          (KOneOf ["Mecanica"; "Eletrica"; "Suspensao"; "Lataria"; "Outros"]);
        required "unitCost" KNumber; required "updatedAt" KString ]
  | Revision =>
      [ required "id" KString; required "clientName" KString;
        required "clientPhone" KString; required "vehicleModel" KString;
        required "licensePlate" KString; required "serviceDescription" KString;
        required "scheduledDate" KString; required "scheduledTime" KString;
        required "status" (KOneOf ["agendada"; "em andamento"; "concluida"]);
        required "priority" (KOneOf ["alta"; "media"; "baixa"]);
        optional "assignedTo" KString; optional "notes" KString;
        required "remindersEnabled" KBoolean ]
  | TeamMember =>
      [ required "id" KString; required "name" KString;
        required "role"
          (KOneOf ["Mecanico"; "Eletricista"; "Diagnostico"; "Pintor"; "Atendimento"]);
        required "phone" KString; required "email" KString;
        required "active" KBoolean;
        required "expertiseLevel" (KOneOf ["Junior"; "Pleno"; "Senior"]);
        required "certificationExpiry" KString; required "hiredAt" KString ]
  | Client =>
      [ required "id" KString; required "name" KString; required "phone" KString;
        required "email" KString; required "vehicle" KString;
        required "licensePlate" KString; required "lastVisit" KString;
        required "tier" (KOneOf ["Standard"; "Gold"; "Platinum"]);
        optional "preferredAdvisor" KString; required "active" KBoolean;
        optional "notes" KString ]
  | Supplier =>
      [ required "id" KString; required "company" KString;
        required "contactName" KString; required "phone" KString;
        required "email" KString;
        required "category"
          (KOneOf ["Pecas originais"; "Pecas paralelas"; "Pneus"; "Tintas";
                   "Servicos terceirizados"]);
        required "leadTimeDays" KNumber; required "preferred" KBoolean;
        required "rating" KNumber; required "lastOrderDate" KString ]
  end.

(** [Omit<T, K>]: the fields of [T] without the keys [K]. *)
Definition Omit (fs : list Field) (ks : list string) : list Field :=
  filter (λ f, bool_decide (fname f ∉ ks)) fs.

Definition has_kind (t : FieldKind) (v : JsValue) : bool :=
  match t, v with
  | KString, VString _ => true
  | KNumber, VNumber _ => true
  | KBoolean, VBoolean _ => true
  | KOneOf ls, VString s => bool_decide (s ∈ ls)
  | _, _ => false
  end.

(** A value inhabits a field when it has the field's type; an optional field
    may also be missing or [undefined]. *)
Definition field_ok (o : JsObject) (f : Field) : bool :=
  match o !! fname f with
  | Some VUndefined => foptional f
  | Some v => has_kind (fkind f) v
  | None => foptional f
  end.

(** The object has exactly the declared shape: every declared field is
    inhabited and there is no property beyond the declared ones. *)
Definition conforms (fs : list Field) (o : JsObject) : bool :=
  forallb (field_ok o) fs
  && bool_decide (dom o ⊆ list_to_set (fname <$> fs)).

(** The keys that the parameter type of each [create] leaves out:
    [Omit<Part, 'id' | 'updatedAt'>] and [Omit<T, 'id'>] for the rest. *)
Definition create_omits (e : Entity) : list string :=
  match e with
  | Part => ["id"; "updatedAt"]
  | _ => ["id"]
  end.

(** The input carries none of the keys [ks]. *)
Definition lacks (ks : list string) (o : JsObject) : Prop :=
  Forall (λ k, o !! k = None) ks.

(** ** The provider state *)

Record DataState := mkState {
  isReady : bool;
  parts : Collection;
  revisions : Collection;
  team : Collection;
  clients : Collection;
  suppliers : Collection
}.

(** [useState(false)] and [useState<T[]>([])], five times. *)
Definition initialState : DataState := mkState false [] [] [] [] [].

Definition setIsReady (b : bool) (s : DataState) : DataState :=
  mkState b (parts s) (revisions s) (team s) (clients s) (suppliers s).
Definition setParts (f : Collection → Collection) (s : DataState) : DataState :=
  mkState (isReady s) (f (parts s)) (revisions s) (team s) (clients s) (suppliers s).
Definition setRevisions (f : Collection → Collection) (s : DataState) : DataState :=
  mkState (isReady s) (parts s) (f (revisions s)) (team s) (clients s) (suppliers s).
Definition setTeam (f : Collection → Collection) (s : DataState) : DataState :=
  mkState (isReady s) (parts s) (revisions s) (f (team s)) (clients s) (suppliers s).
Definition setClients (f : Collection → Collection) (s : DataState) : DataState :=
  mkState (isReady s) (parts s) (revisions s) (team s) (f (clients s)) (suppliers s).
Definition setSuppliers (f : Collection → Collection) (s : DataState) : DataState :=
  mkState (isReady s) (parts s) (revisions s) (team s) (clients s) (f (suppliers s)).

Definition collection (e : Entity) (s : DataState) : Collection :=
  match e with
  | Part => parts s
  | Revision => revisions s
  | TeamMember => team s
  | Client => clients s
  | Supplier => suppliers s
  end.

(** ** Identities

    What [generateId] finds when it is called: whether [crypto.randomUUID]
    exists and the UUID it returns, the clock ([Date.now()], in milliseconds)
    and the hexadecimal digits that [Math.random().toString(16).slice(2)]
    yields. *)
Record Entropy := mkEntropy {
  has_randomUUID : bool;
  randomUUID : string;
  Date_now : N;
  random_hex : string
}.

Definition generateId (env : Entropy) : string :=
  if has_randomUUID env then randomUUID env
  else pretty (Date_now env) +:+ "-" +:+ random_hex env.

(** ** The store operations

    Each operation is an [async] function: what the caller gets is a promise.
    [Fulfilled s] is the promise resolved, [s] being the state once the
    queued update is applied; [Rejected] is a promise that rejects (an
    exception escaped the body). *)

Inductive Promise (A : Type) :=
| Fulfilled (a : A)
| Rejected.
Arguments Fulfilled {A} a.
Arguments Rejected {A}.

Definition createPart (env : Entropy) (now : string) (input : JsObject) (s : DataState)
  : Promise DataState :=
  Fulfilled (setParts (λ previous,
    spread (<["updatedAt" := VString now]> (<["id" := VString (generateId env)]> ∅))
      input
    :: previous) s).

(** The callback of [previous.map] in [updatePart] calls [nowIso()] once for
    every record it rebuilds: [clock k] is the k-th reading of the clock taken
    while the updater runs. *)
Fixpoint updatePart_map (id : string) (clock : nat → string) (input : JsObject)
    (k : nat) (previous : Collection) : Collection :=
  match previous with
  | [] => []
  | item :: rest =>
      if id_is id item
      then <["id" := VString id]>
             (<["updatedAt" := VString (clock k)]> (spread (spread ∅ item) input))
           :: updatePart_map id clock input (S k) rest
      else item :: updatePart_map id clock input k rest
  end.

Definition updatePart (id : string) (clock : nat → string) (input : JsObject)
    (s : DataState) : Promise DataState :=
  Fulfilled (setParts (λ previous, updatePart_map id clock input 0 previous) s).

Definition deletePart (id : string) (s : DataState) : Promise DataState :=
  Fulfilled (setParts (λ previous,
    filter (λ item, negb (id_is id item)) previous) s).

Definition createRevision (env : Entropy) (input : JsObject) (s : DataState)
  : Promise DataState :=
  Fulfilled (setRevisions (λ previous,
    spread (<["id" := VString (generateId env)]> ∅) input :: previous) s).

Definition updateRevision (id : string) (input : JsObject) (s : DataState)
  : Promise DataState :=
  Fulfilled (setRevisions (λ previous,
    map (λ item,
      if id_is id item
      then <["id" := VString id]> (spread (spread ∅ item) input)
      else item) previous) s).

Definition deleteRevision (id : string) (s : DataState) : Promise DataState :=
  Fulfilled (setRevisions (λ previous,
    let filtered := filter (λ item, negb (id_is id item)) previous in
    filtered) s).

Definition createTeamMember (env : Entropy) (input : JsObject) (s : DataState)
  : Promise DataState :=
  Fulfilled (setTeam (λ previous,
    spread (<["id" := VString (generateId env)]> ∅) input :: previous) s).

Definition updateTeamMember (id : string) (input : JsObject) (s : DataState)
  : Promise DataState :=
  Fulfilled (setTeam (λ previous,
    map (λ item,
      if id_is id item
      then <["id" := VString id]> (spread (spread ∅ item) input)
      else item) previous) s).

Definition deleteTeamMember (id : string) (s : DataState) : Promise DataState :=
  Fulfilled (setTeam (λ previous,
    filter (λ item, negb (id_is id item)) previous) s).

Definition createClient (env : Entropy) (input : JsObject) (s : DataState)
  : Promise DataState :=
  Fulfilled (setClients (λ previous,
    spread (<["id" := VString (generateId env)]> ∅) input :: previous) s).

Definition updateClient (id : string) (input : JsObject) (s : DataState)
  : Promise DataState :=
  Fulfilled (setClients (λ previous,
    map (λ item,
      if id_is id item
      then <["id" := VString id]> (spread (spread ∅ item) input)
      else item) previous) s).

Definition deleteClient (id : string) (s : DataState) : Promise DataState :=
  Fulfilled (setClients (λ previous,
    filter (λ item, negb (id_is id item)) previous) s).

Definition createSupplier (env : Entropy) (input : JsObject) (s : DataState)
  : Promise DataState :=
  Fulfilled (setSuppliers (λ previous,
    spread (<["id" := VString (generateId env)]> ∅) input :: previous) s).

Definition updateSupplier (id : string) (input : JsObject) (s : DataState)
  : Promise DataState :=
  Fulfilled (setSuppliers (λ previous,
    map (λ item,
      if id_is id item
      then <["id" := VString id]> (spread (spread ∅ item) input)
      else item) previous) s).

Definition deleteSupplier (id : string) (s : DataState) : Promise DataState :=
  Fulfilled (setSuppliers (λ previous,
    filter (λ item, negb (id_is id item)) previous) s).

(** The three operations of the store, by entity type.  [now] and [clock]
    are what [nowIso()] returns during the call; only the Part operations
    read them. *)
Definition createRecord (e : Entity) (env : Entropy) (now : string)
    (input : JsObject)
  : DataState → Promise DataState :=
  match e with
  | Part => createPart env now input
  | Revision => createRevision env input
  | TeamMember => createTeamMember env input
  | Client => createClient env input
  | Supplier => createSupplier env input
  end.

Definition updateRecord (e : Entity) (id : string) (clock : nat → string)
    (input : JsObject) : DataState → Promise DataState :=
  match e with
  | Part => updatePart id clock input
  | Revision => updateRevision id input
  | TeamMember => updateTeamMember id input
  | Client => updateClient id input
  | Supplier => updateSupplier id input
  end.

Definition deleteRecord (e : Entity) (id : string) : DataState → Promise DataState :=
  match e with
  | Part => deletePart id
  | Revision => deleteRevision id
  | TeamMember => deleteTeamMember id
  | Client => deleteClient id
  | Supplier => deleteSupplier id
  end.

(** ** JSON

    [JSON.stringify] and [JSON.parse] belong to the platform, not to the
    repository.  They are modelled on texts of 8-bit characters: the grammar
    and the escapes are those of ECMA-404; a finite number is written in
    plain decimal notation, without an exponent. *)

#[warnings="-register-all"]
Inductive Json :=
| JNull
| JBool (b : bool)
| JNum (m : Z) (scale : nat)
| JStr (s : string)
| JArr (items : list Json)
| JObj (members : list (string * Json)).

Definition dquote : ascii := "034"%char.
Definition backslash : ascii := "092"%char.

(** *** Writing *)

Definition hex_digit (n : N) : ascii :=
  ascii_of_N (if (n <? 10)%N then 48 + n else 87 + n).

(** One character of a string literal, as [QuoteJSONString] writes it. *)
Definition quote_char (c : ascii) : list ascii :=
  if Ascii.eqb c dquote then [backslash; dquote]
  else if Ascii.eqb c backslash then [backslash; backslash]
  else if Ascii.eqb c "008"%char then [backslash; "b"%char]
  else if Ascii.eqb c "012"%char then [backslash; "f"%char]
  else if Ascii.eqb c "010"%char then [backslash; "n"%char]
  else if Ascii.eqb c "013"%char then [backslash; "r"%char]
  else if Ascii.eqb c "009"%char then [backslash; "t"%char]
  else if (N_of_ascii c <? 32)%N
       then [backslash; "u"%char; "0"%char; "0"%char;
             hex_digit (N_of_ascii c / 16); hex_digit (N_of_ascii c mod 16)]
       else [c].

Definition quote (s : string) : list ascii :=
  dquote :: flat_map quote_char (list_ascii_of_string s) ++ [dquote].

Fixpoint chars_of_uint (u : Decimal.uint) : list ascii :=
  match u with
  | Decimal.Nil => []
  | Decimal.D0 u => "0"%char :: chars_of_uint u
  | Decimal.D1 u => "1"%char :: chars_of_uint u
  | Decimal.D2 u => "2"%char :: chars_of_uint u
  | Decimal.D3 u => "3"%char :: chars_of_uint u
  | Decimal.D4 u => "4"%char :: chars_of_uint u
  | Decimal.D5 u => "5"%char :: chars_of_uint u
  | Decimal.D6 u => "6"%char :: chars_of_uint u
  | Decimal.D7 u => "7"%char :: chars_of_uint u
  | Decimal.D8 u => "8"%char :: chars_of_uint u
  | Decimal.D9 u => "9"%char :: chars_of_uint u
  end.

Definition digits_of_N (n : N) : list ascii := chars_of_uint (N.to_uint n).

(** The numeral [m / 10^scale]: the digits of [|m|], filled with zeros on the
    left up to [scale + 1] digits, with the point before the last [scale]
    digits. *)
Definition print_number (m : Z) (scale : nat) : list ascii :=
  let ds := digits_of_N (Z.abs_N m) in
  let padded := replicate (S scale - length ds) "0"%char ++ ds in
  let cut := length padded - scale in
  (if (m <? 0)%Z then ["-"%char] else [])
  ++ take cut padded
  ++ (match scale with 0 => [] | S _ => "."%char :: drop cut padded end).

Definition join (sep : ascii) (texts : list (list ascii)) : list ascii :=
  match texts with
  | [] => []
  | t :: ts => t ++ flat_map (λ t', sep :: t') ts
  end.

Fixpoint print (j : Json) : list ascii :=
  match j with
  | JNull => list_ascii_of_string "null"
  | JBool true => list_ascii_of_string "true"
  | JBool false => list_ascii_of_string "false"
  | JNum m scale => print_number m scale
  | JStr s => quote s
  | JArr items => "["%char :: join ","%char (map print items) ++ ["]"%char]
  | JObj members =>
      "{"%char
      :: join ","%char (map (λ kv, quote (fst kv) ++ ":"%char :: print (snd kv)) members)
      ++ ["}"%char]
  end.

(** *** Reading *)

Definition is_ws (c : ascii) : bool :=
  Ascii.eqb c " "%char || Ascii.eqb c "009"%char
  || Ascii.eqb c "010"%char || Ascii.eqb c "013"%char.

Definition is_digit (c : ascii) : bool :=
  (48 <=? N_of_ascii c)%N && (N_of_ascii c <=? 57)%N.

Fixpoint skip_ws (s : list ascii) : list ascii :=
  match s with
  | c :: rest => if is_ws c then skip_ws rest else s
  | [] => []
  end.

Definition hex_val (c : ascii) : option N :=
  let n := N_of_ascii c in
  if (48 <=? n)%N && (n <=? 57)%N then Some (n - 48)%N
  else if (97 <=? n)%N && (n <=? 102)%N then Some (n - 87)%N
  else if (65 <=? n)%N && (n <=? 70)%N then Some (n - 55)%N
  else None.

(** The characters that stand for the code unit [cp] of a [\uXXXX] escape
    in a text of 8-bit characters (the UTF-8 form of the code unit). *)
Definition chars_of_code_unit (cp : N) : list ascii :=
  if (cp <? 128)%N then [ascii_of_N cp]
  else if (cp <? 2048)%N
       then [ascii_of_N (192 + cp / 64); ascii_of_N (128 + cp mod 64)]
       else [ascii_of_N (224 + cp / 4096); ascii_of_N (128 + (cp / 64) mod 64);
             ascii_of_N (128 + cp mod 64)].

Definition unescape (c : ascii) : option ascii :=
  if Ascii.eqb c dquote then Some dquote
  else if Ascii.eqb c backslash then Some backslash
  else if Ascii.eqb c "/"%char then Some "/"%char
  else if Ascii.eqb c "b"%char then Some "008"%char
  else if Ascii.eqb c "f"%char then Some "012"%char
  else if Ascii.eqb c "n"%char then Some "010"%char
  else if Ascii.eqb c "r"%char then Some "013"%char
  else if Ascii.eqb c "t"%char then Some "009"%char
  else None.

(** The characters of a string literal, read after its opening quote. *)
Fixpoint parse_string_body (s : list ascii) : option (list ascii * list ascii) :=
  match s with
  | [] => None
  | c :: rest =>
      if Ascii.eqb c dquote then Some ([], rest)
      else if Ascii.eqb c backslash then
        match rest with
        | [] => None
        | e :: rest1 =>
            if Ascii.eqb e "u"%char then
              match rest1 with
              | h1 :: h2 :: h3 :: h4 :: rest2 =>
                  match hex_val h1, hex_val h2, hex_val h3, hex_val h4 with
                  | Some a, Some b, Some c', Some d =>
                      match parse_string_body rest2 with
                      | Some (cs, rest3) =>
                          Some (chars_of_code_unit (((a * 16 + b) * 16 + c') * 16 + d)%N
                                ++ cs, rest3)
                      | None => None
                      end
                  | _, _, _, _ => None
                  end
              | _ => None
              end
            else
              match unescape e with
              | Some c' =>
                  match parse_string_body rest1 with
                  | Some (cs, rest2) => Some (c' :: cs, rest2)
                  | None => None
                  end
              | None => None
              end
        end
      else if (N_of_ascii c <? 32)%N then None
      else
        match parse_string_body rest with
        | Some (cs, rest1) => Some (c :: cs, rest1)
        | None => None
        end
  end.

(** The longest prefix of digits, and what follows it. *)
Fixpoint span_digits (s : list ascii) : list ascii * list ascii :=
  match s with
  | c :: rest =>
      if is_digit c
      then let '(ds, rest') := span_digits rest in (c :: ds, rest')
      else ([], s)
  | [] => ([], [])
  end.

Fixpoint uint_of_chars (ds : list ascii) : Decimal.uint :=
  match ds with
  | [] => Decimal.Nil
  | c :: ds =>
      let u := uint_of_chars ds in
      match (N_of_ascii c - 48)%N with
      | 0%N => Decimal.D0 u
      | 1%N => Decimal.D1 u
      | 2%N => Decimal.D2 u
      | 3%N => Decimal.D3 u
      | 4%N => Decimal.D4 u
      | 5%N => Decimal.D5 u
      | 6%N => Decimal.D6 u
      | 7%N => Decimal.D7 u
      | 8%N => Decimal.D8 u
      | _ => Decimal.D9 u
      end
  end.

Definition N_of_digits (ds : list ascii) : N := N.of_uint (uint_of_chars ds).

(** The value of [mantissa * 10^(exponent - scale)] as a decimal numeral. *)
Definition scaled (mantissa : Z) (scale : nat) (exponent : Z) : Json :=
  let shift := (exponent - Z.of_nat scale)%Z in
  if (0 <=? shift)%Z
  then JNum (mantissa * 10 ^ shift) 0
  else JNum mantissa (Z.to_nat (- shift)).

Definition parse_sign (s : list ascii) : bool * list ascii :=
  match s with
  | c :: rest => if Ascii.eqb c "-"%char then (true, rest) else (false, s)
  | [] => (false, s)
  end.

(** A point and one digit or more, or nothing. *)
Definition parse_fraction (s : list ascii) : option (list ascii * list ascii) :=
  match s with
  | c :: rest =>
      if Ascii.eqb c "."%char
      then let '(frac, s') := span_digits rest in
           match frac with
           | [] => None
           | _ :: _ => Some (frac, s')
           end
      else Some ([], s)
  | [] => Some ([], s)
  end.

(** [e] or [E], a sign or none, and one digit or more; or nothing. *)
Definition parse_exponent (s : list ascii) : option (Z * list ascii) :=
  match s with
  | c :: rest =>
      if Ascii.eqb c "e"%char || Ascii.eqb c "E"%char
      then
        let '(minus, s1) :=
          match rest with
          | sg :: rest' =>
              if Ascii.eqb sg "-"%char then (true, rest')
              else if Ascii.eqb sg "+"%char then (false, rest')
              else (false, rest)
          | [] => (false, rest)
          end in
        let '(ds, s2) := span_digits s1 in
        match ds with
        | [] => None
        | _ :: _ =>
            let x := Z.of_N (N_of_digits ds) in
            Some (if minus then (- x)%Z else x, s2)
        end
      else Some (0%Z, s)
  | [] => Some (0%Z, s)
  end.

(** [-? int frac? exp?], with [int] either [0] or a digit from 1 to 9
    followed by digits. *)
Definition parse_number (s : list ascii) : option (Json * list ascii) :=
  let '(negative, s1) := parse_sign s in
  let '(int, s2) := span_digits s1 in
  match int with
  | [] => None
  | d :: more =>
      if Ascii.eqb d "0"%char && negb (bool_decide (more = [])) then None
      else
        match parse_fraction s2 with
        | None => None
        | Some (frac, s3) =>
            match parse_exponent s3 with
            | None => None
            | Some (x, s4) =>
                let n := Z.of_N (N_of_digits (int ++ frac)) in
                Some (scaled (if negative then (- n)%Z else n) (length frac) x, s4)
            end
        end
  end.

(** The text after the word, when the text starts with it. *)
Fixpoint after_prefix (word s : list ascii) : option (list ascii) :=
  match word with
  | [] => Some s
  | c :: word' =>
      match s with
      | c' :: s' => if Ascii.eqb c c' then after_prefix word' s' else None
      | [] => None
      end
  end.

Definition starts_with (word : string) (s : list ascii) : option (list ascii) :=
  after_prefix (list_ascii_of_string word) s.

(** A value, and the text after it.  [fuel] bounds the number of nested
    calls; white space before the value is skipped, white space after it is
    left to the caller. *)
Fixpoint parse_value (fuel : nat) (s : list ascii) : option (Json * list ascii) :=
  match fuel with
  | 0 => None
  | S fuel =>
      match skip_ws s with
      | [] => None
      | c :: rest =>
          if Ascii.eqb c "{"%char then
            match skip_ws rest with
            | c' :: rest' =>
                if Ascii.eqb c' "}"%char then Some (JObj [], rest')
                else
                  match parse_members fuel rest with
                  | Some (ms, rest'') => Some (JObj ms, rest'')
                  | None => None
                  end
            | [] => None
            end
          else if Ascii.eqb c "["%char then
            match skip_ws rest with
            | c' :: rest' =>
                if Ascii.eqb c' "]"%char then Some (JArr [], rest')
                else
                  match parse_elements fuel rest with
                  | Some (vs, rest'') => Some (JArr vs, rest'')
                  | None => None
                  end
            | [] => None
            end
          else if Ascii.eqb c dquote then
            match parse_string_body rest with
            | Some (cs, rest') => Some (JStr (string_of_list_ascii cs), rest')
            | None => None
            end
          else if Ascii.eqb c "t"%char then
            match starts_with "true" (c :: rest) with
            | Some rest' => Some (JBool true, rest')
            | None => None
            end
          else if Ascii.eqb c "f"%char then
            match starts_with "false" (c :: rest) with
            | Some rest' => Some (JBool false, rest')
            | None => None
            end
          else if Ascii.eqb c "n"%char then
            match starts_with "null" (c :: rest) with
            | Some rest' => Some (JNull, rest')
            | None => None
            end
          else parse_number (c :: rest)
      end
  end

(** One member or more, then the closing brace. *)
with parse_members (fuel : nat) (s : list ascii)
  : option (list (string * Json) * list ascii) :=
  match fuel with
  | 0 => None
  | S fuel =>
      match skip_ws s with
      | c :: rest =>
          if Ascii.eqb c dquote then
            match parse_string_body rest with
            | Some (k, rest1) =>
                match skip_ws rest1 with
                | c1 :: rest2 =>
                    if Ascii.eqb c1 ":"%char then
                      match parse_value fuel rest2 with
                      | Some (v, rest3) =>
                          match skip_ws rest3 with
                          | c2 :: rest4 =>
                              if Ascii.eqb c2 ","%char then
                                match parse_members fuel rest4 with
                                | Some (ms, rest5) =>
                                    Some ((string_of_list_ascii k, v) :: ms, rest5)
                                | None => None
                                end
                              else if Ascii.eqb c2 "}"%char
                                   then Some ([(string_of_list_ascii k, v)], rest4)
                                   else None
                          | [] => None
                          end
                      | None => None
                      end
                    else None
                | [] => None
                end
            | None => None
            end
          else None
      | [] => None
      end
  end

(** One element or more, then the closing bracket. *)
with parse_elements (fuel : nat) (s : list ascii)
  : option (list Json * list ascii) :=
  match fuel with
  | 0 => None
  | S fuel =>
      match parse_value fuel s with
      | Some (v, rest) =>
          match skip_ws rest with
          | c :: rest1 =>
              if Ascii.eqb c ","%char then
                match parse_elements fuel rest1 with
                | Some (vs, rest2) => Some (v :: vs, rest2)
                | None => None
                end
              else if Ascii.eqb c "]"%char then Some ([v], rest1)
              else None
          | [] => None
          end
      | None => None
      end
  end.

(** [JSON.parse(text)]: [None] when it throws a [SyntaxError]. *)
Definition JSON_parse (text : string) : option Json :=
  let s := list_ascii_of_string text in
  match parse_value (S (length s)) s with
  | Some (j, rest) =>
      match skip_ws rest with
      | [] => Some j
      | _ :: _ => None
      end
  | None => None
  end.

(** *** Records and JSON values *)

(** [SerializeJSONProperty] on a field: a property whose value is
    [undefined] is left out of the text, and a number that is not finite is
    written [null]. *)
Definition json_of_value (v : JsValue) : option Json :=
  match v with
  | VUndefined => None
  | VNull => Some JNull
  | VBoolean b => Some (JBool b)
  | VNumber (Decimal m scale) => Some (JNum m scale)
  | VNumber _ => Some JNull
  | VString s => Some (JStr s)
  end.

(** The members are written in the order in which the map lists them. *)
Definition json_of_record (o : JsObject) : Json :=
  JObj (omap (λ kv, pair (fst kv) <$> json_of_value (snd kv)) (map_to_list o)).

Definition json_of_collection (c : Collection) : Json :=
  JArr (json_of_record <$> c).

(** [JSON.stringify(value)] for [value : T[]]. *)
Definition JSON_stringify (c : Collection) : string :=
  string_of_list_ascii (print (json_of_collection c)).

Definition value_of_json (j : Json) : option JsValue :=
  match j with
  | JNull => Some VNull
  | JBool b => Some (VBoolean b)
  | JNum m scale => Some (VNumber (Decimal m scale))
  | JStr s => Some (VString s)
  | JArr _ | JObj _ => None
  end.

(** The object that [JSON.parse] builds from the members of a JSON object
    whose values are scalars: a later member wins over an earlier one with the
    same name. *)
Definition record_of_members (ms : list (string * Json)) : option JsObject :=
  foldl (λ acc kv,
           match acc, value_of_json (snd kv) with
           | Some o, Some v => Some (<[fst kv := v]> o)
           | _, _ => None
           end) (Some ∅) ms.

Definition record_of_json (j : Json) : option JsObject :=
  match j with
  | JObj ms => record_of_members ms
  | _ => None
  end.

Definition collection_of_json (j : Json) : option Collection :=
  match j with
  | JArr items => mapM record_of_json items
  | _ => None
  end.

(** What a parsed value is once cast with [as T[]].  The cast checks
    nothing: a value that is an array of records with scalar fields is a
    collection of this model; any other value is kept as it is, outside the
    typed state. *)
Inductive Loaded :=
| Records (c : Collection)
| Verbatim (j : Json).

Definition cast (j : Json) : Loaded :=
  match collection_of_json j with
  | Some c => Records c
  | None => Verbatim j
  end.

(** ** Storage *)

(** [AsyncStorage]: the stored items, and the keys whose reads and writes
    are rejected (storage unreadable, write failure). *)
Record AsyncStorage := mkStorage {
  items : gmap string string;
  unreadable : gset string;
  unwritable : gset string
}.

(** A computation that awaits storage calls: from the storage to a promise
    and the storage it leaves. *)
Definition Async (A : Type) : Type := AsyncStorage → Promise A * AsyncStorage.

Definition ret {A} (a : A) : Async A := λ st, (Fulfilled a, st).
Definition throw {A} : Async A := λ st, (Rejected, st).
Definition bind {A B} (m : Async A) (f : A → Async B) : Async B :=
  λ st, match m st with
        | (Fulfilled a, st') => f a st'
        | (Rejected, st') => (Rejected, st')
        end.
Definition try_catch {A} (body : Async A) (handler : Async A) : Async A :=
  λ st, match body st with
        | (Fulfilled a, st') => (Fulfilled a, st')
        | (Rejected, st') => handler st'
        end.

Notation "'let*' x ':=' m 'in' k" := (bind m (λ x, k))
  (at level 10, x name, m at level 100, k at level 200).

Definition getItem (key : string) : Async (option string) :=
  λ st, if decide (key ∈ unreadable st) then (Rejected, st)
        else (Fulfilled (items st !! key), st).

Definition setItem (key value : string) : Async () :=
  λ st, if decide (key ∈ unwritable st) then (Rejected, st)
        else (Fulfilled (),
              mkStorage (<[key := value]> (items st)) (unreadable st) (unwritable st)).

(** [!raw] for [raw : string | null]: [null] and the empty string are
    falsy. *)
Definition falsy (raw : option string) : bool :=
  match raw with
  | None => true
  | Some text => bool_decide (text = EmptyString)
  end.

(** [JSON.parse(raw)] under [try]: a [SyntaxError] is a rejection. *)
Definition parse_or_throw (raw : option string) : Async Json :=
  match raw with
  | Some text =>
      match JSON_parse text with
      | Some j => ret j
      | None => throw
      end
  | None => throw
  end.

(** [parsed.length], evaluated for the log line: reading a property of
    [null] throws a [TypeError]. *)
Definition read_length (parsed : Json) : Async () :=
  match parsed with
  | JNull => throw
  | _ => ret ()
  end.

Definition loadCollection (key : string) (fallback : Collection) : Async Loaded :=
  try_catch
    (let* raw := getItem key in
     if falsy raw
     then
       let* _ := setItem key (JSON_stringify fallback) in
       ret (Records fallback)
     else
       let* parsed := parse_or_throw raw in
       let* _ := read_length parsed in
       ret (cast parsed))
    (ret (Records fallback)).

Definition persistCollection (key : string) (value : Collection) : Async () :=
  try_catch (setItem key (JSON_stringify value)) (ret ()).

Definition STORAGE_KEYS (e : Entity) : string :=
  match e with
  | Part => "@redcar/parts"
  | Revision => "@redcar/revisions"
  | TeamMember => "@redcar/team"
  | Client => "@redcar/clients"
  | Supplier => "@redcar/suppliers"
  end.

(** ** Seed records

    The seed lists are module constants: their identities and their
    time-dependent fields are computed once, when the module is loaded.
    [seedEntropy k] is what the k-th call of [generateId()] finds and
    [seedTime k] the k-th time stamp computed from the clock, in the order of
    the source text. *)
Record ModuleInit := mkInit {
  seedEntropy : nat → Entropy;
  seedTime : nat → string
}.

Definition seedId (init : ModuleInit) (k : nat) : string :=
  generateId (seedEntropy init k).

(** An object literal. *)
Definition obj (fields : list (string * JsValue)) : JsObject :=
  foldl (λ o kv, <[fst kv := snd kv]> o) ∅ fields.

Definition number (m : Z) (scale : nat) : JsValue := VNumber (Decimal m scale).

Definition defaultTeam (init : ModuleInit) : Collection :=
  [ obj [ ("id", VString (seedId init 0));
          ("name", VString "Renato Albuquerque");
          ("role", VString "Mecanico");
          ("phone", VString "(11) 95555-2901");
          ("email", VString "renato.albuquerque@redcar.com");
          ("active", VBoolean true);
          ("expertiseLevel", VString "Senior");
          ("certificationExpiry", VString (seedTime init 0));
          ("hiredAt", VString "2020-03-10T00:00:00.000Z") ];
    obj [ ("id", VString (seedId init 1));
          ("name", VString "Isabela Monteiro");
          ("role", VString "Diagnostico");
          ("phone", VString "(11) 98888-4412");
          ("email", VString "isabela.monteiro@redcar.com");
          ("active", VBoolean true);
          ("expertiseLevel", VString "Pleno");
          ("certificationExpiry", VString (seedTime init 1));
          ("hiredAt", VString "2021-08-22T00:00:00.000Z") ] ].

Definition defaultParts (init : ModuleInit) : Collection :=
  [ obj [ ("id", VString (seedId init 2));
          ("name", VString "Filtro de oleo sintetico");
          ("code", VString "RC-FO-900");
          ("quantity", number 18 0);
          ("minStock", number 6 0);
          ("location", VString "Corredor B2");
          ("supplier", VString "Mann-Filter");
          ("category", VString "Mecanica");
          ("unitCost", number 389 1);
          ("updatedAt", VString (seedTime init 2)) ];
    obj [ ("id", VString (seedId init 3));
          ("name", VString "Pastilha de freio ceramica");
          ("code", VString "RC-PF-320");
          ("quantity", number 8 0);
          ("minStock", number 12 0);
          ("location", VString "Corredor A1");
          ("supplier", VString "Bosch");
          ("category", VString "Suspensao");
          ("unitCost", number 1264 1);
          ("updatedAt", VString (seedTime init 3)) ] ].

(** [defaultTeam[k]?.id] *)
Definition team_id (init : ModuleInit) (k : nat) : JsValue :=
  match defaultTeam init !! k with
  | Some member => get member "id"
  | None => VUndefined
  end.

Definition defaultRevisions (init : ModuleInit) : Collection :=
  [ obj [ ("id", VString (seedId init 4));
          ("clientName", VString "Juliana Souza");
          ("clientPhone", VString "(11) 97123-4001");
          ("vehicleModel", VString "Toyota Corolla 2022");
          ("licensePlate", VString "FRT-1023");
          ("serviceDescription", VString "Revisao de 20.000 km + alinhamento");
          ("scheduledDate", VString (seedTime init 4));
          ("scheduledTime", VString "14:00");
          ("status", VString "agendada");
          ("priority", VString "media");
          ("assignedTo", team_id init 1);
          ("notes", VString "Cliente aguarda contato caso haja orcamento adicional.");
          ("remindersEnabled", VBoolean true) ];
    obj [ ("id", VString (seedId init 5));
          ("clientName", VString "Carlos Henrique");
          ("clientPhone", VString "(11) 97211-8899");
          ("vehicleModel", VString "Honda Civic 2020");
          ("licensePlate", VString "HDC-7788");
          ("serviceDescription", VString "Troca de correia dentada e bomba d'agua");
          ("scheduledDate", VString (seedTime init 5));
          ("scheduledTime", VString "10:30");
          ("status", VString "em andamento");
          ("priority", VString "alta");
          ("assignedTo", team_id init 0);
          ("notes", VString "Pecas separadas, aguardar aprovacao para itens extras.");
          ("remindersEnabled", VBoolean false) ];
    obj [ ("id", VString (seedId init 6));
          ("clientName", VString "Maria Silva");
          ("clientPhone", VString "(11) 99999-1234");
          ("vehicleModel", VString "Volkswagen Golf 2021");
          ("licensePlate", VString "MSG-4567");
          ("serviceDescription", VString "Revisao completa + troca de filtros");
          ("scheduledDate", VString (seedTime init 6));
          ("scheduledTime", VString "09:00");
          ("status", VString "concluida");
          ("priority", VString "baixa");
          ("assignedTo", team_id init 0);
          ("notes", VString "Servico concluido com sucesso. Cliente satisfeito.");
          ("remindersEnabled", VBoolean false) ] ].

Definition defaultClients (init : ModuleInit) : Collection :=
  [ obj [ ("id", VString (seedId init 7));
          ("name", VString "Fernanda Azevedo");
          ("phone", VString "(11) 96330-1200");
          ("email", VString "fernanda.azevedo@email.com");
          ("vehicle", VString "Renault Duster 2019");
          ("licensePlate", VString "FND-8891");
          ("lastVisit", VString (seedTime init 7));
          ("tier", VString "Gold");
          ("preferredAdvisor", team_id init 0);
          ("active", VBoolean true);
          ("notes", VString "Prefere agendamentos pela manha.") ];
    obj [ ("id", VString (seedId init 8));
          ("name", VString "Tiago Martins");
          ("phone", VString "(11) 97700-1122");
          ("email", VString "tiago.martins@email.com");
          ("vehicle", VString "Chevrolet Tracker 2021");
          ("licensePlate", VString "TMX-3211");
          ("lastVisit", VString (seedTime init 8));
          ("tier", VString "Standard");
          ("active", VBoolean true);
          ("notes", VString "Solicitou orcamento para instalacao de acessorios.") ] ].

Definition defaultSuppliers (init : ModuleInit) : Collection :=
  [ obj [ ("id", VString (seedId init 9));
          ("company", VString "AutoParts Brasil");
          ("contactName", VString "Luciana Reis");
          ("phone", VString "(11) 94221-7800");
          ("email", VString "luciana.reis@autoparts.com");
          ("category", VString "Pecas originais");
          ("leadTimeDays", number 3 0);
          ("preferred", VBoolean true);
          ("rating", number 48 1);
          ("lastOrderDate", VString (seedTime init 9)) ];
    obj [ ("id", VString (seedId init 10));
          ("company", VString "PneusMax");
          ("contactName", VString "Eduardo Lima");
          ("phone", VString "(11) 93011-9022");
          ("email", VString "eduardo@pneusmax.com");
          ("category", VString "Pneus");
          ("leadTimeDays", number 5 0);
          ("preferred", VBoolean false);
          ("rating", number 43 1);
          ("lastOrderDate", VString (seedTime init 10)) ] ].

Definition defaults (init : ModuleInit) (e : Entity) : Collection :=
  match e with
  | Part => defaultParts init
  | Revision => defaultRevisions init
  | TeamMember => defaultTeam init
  | Client => defaultClients init
  | Supplier => defaultSuppliers init
  end.

(** ** Startup and persistence *)

(** [Promise.all] of the five loads.  Each load touches its own key only, so
    that the order in which the loads run does not matter ([loads_commute]);
    they are run in the order of the array. *)
Definition bootstrap_loads (init : ModuleInit)
  : Async (Loaded * Loaded * Loaded * Loaded * Loaded) :=
  let* storedParts := loadCollection (STORAGE_KEYS Part) (defaultParts init) in
  let* storedRevisions :=
    loadCollection (STORAGE_KEYS Revision) (defaultRevisions init) in
  let* storedTeam := loadCollection (STORAGE_KEYS TeamMember) (defaultTeam init) in
  let* storedClients := loadCollection (STORAGE_KEYS Client) (defaultClients init) in
  let* storedSuppliers :=
    loadCollection (STORAGE_KEYS Supplier) (defaultSuppliers init) in
  ret (storedParts, storedRevisions, storedTeam, storedClients, storedSuppliers).

(** The six state updates that [bootstrap] queues once the loads have
    resolved, in program order. *)
Definition bootstrap_updates
    (storedParts storedRevisions storedTeam storedClients storedSuppliers : Collection)
  : list (DataState → DataState) :=
  [ setParts (λ _, storedParts);
    setRevisions (λ _, storedRevisions);
    setTeam (λ _, storedTeam);
    setClients (λ _, storedClients);
    setSuppliers (λ _, storedSuppliers);
    setIsReady true ].

Definition apply_updates (queue : list (DataState → DataState)) (s : DataState)
  : DataState :=
  foldl (λ s' u, u s') s queue.

(** The provider: its React state and the storage behind it. *)
Record Provider := mkProvider {
  state : DataState;
  storage : AsyncStorage
}.

(** *** The state at run time

    The types of TypeScript are erased when the program runs: a state
    variable holds what its setter is given, and [bootstrap] gives the five
    setters what the loads returned, whether it is a list of records or
    not. *)
Module Runtime.

Record State := mkState {
  isReady : bool;
  parts : Loaded;
  revisions : Loaded;
  team : Loaded;
  clients : Loaded;
  suppliers : Loaded
}.

Definition setIsReady (b : bool) (s : State) : State :=
  mkState b (parts s) (revisions s) (team s) (clients s) (suppliers s).
Definition setParts (value : Loaded) (s : State) : State :=
  mkState (isReady s) value (revisions s) (team s) (clients s) (suppliers s).
Definition setRevisions (value : Loaded) (s : State) : State :=
  mkState (isReady s) (parts s) value (team s) (clients s) (suppliers s).
Definition setTeam (value : Loaded) (s : State) : State :=
  mkState (isReady s) (parts s) (revisions s) value (clients s) (suppliers s).
Definition setClients (value : Loaded) (s : State) : State :=
  mkState (isReady s) (parts s) (revisions s) (team s) value (suppliers s).
Definition setSuppliers (value : Loaded) (s : State) : State :=
  mkState (isReady s) (parts s) (revisions s) (team s) (clients s) value.

Definition collection (e : Entity) (s : State) : Loaded :=
  match e with
  | Part => parts s
  | Revision => revisions s
  | TeamMember => team s
  | Client => clients s
  | Supplier => suppliers s
  end.

(** [setParts(storedParts); ...; setIsReady(true)]: the six updates that
    [bootstrap] queues, in program order. *)
Definition bootstrap_updates
    (storedParts storedRevisions storedTeam storedClients storedSuppliers : Loaded)
  : list (State → State) :=
  [ setParts storedParts;
    setRevisions storedRevisions;
    setTeam storedTeam;
    setClients storedClients;
    setSuppliers storedSuppliers;
    setIsReady true ].

Definition apply_updates (queue : list (State → State)) (s : State) : State :=
  foldl (λ s' u, u s') s queue.

End Runtime.

(** A typed state, as it is at run time. *)
Definition run_time (s : DataState) : Runtime.State :=
  Runtime.mkState (isReady s) (Records (parts s)) (Records (revisions s))
    (Records (team s)) (Records (clients s)) (Records (suppliers s)).

(** [bootstrap()], from the loads to the commit of the six updates it
    queues.  [s] is the state by then: the one the provider was mounted with,
    or what the screens have made of it while the loads ran.  Were
    [Promise.all] to reject, nothing would be queued. *)
Definition bootstrap (init : ModuleInit) (s : Runtime.State) (st : AsyncStorage)
  : Runtime.State * AsyncStorage :=
  match bootstrap_loads init st with
  | (Fulfilled
       (storedParts, storedRevisions, storedTeam, storedClients, storedSuppliers),
     st') =>
      (Runtime.apply_updates
         (Runtime.bootstrap_updates storedParts storedRevisions storedTeam
            storedClients storedSuppliers) s,
       st')
  | (Rejected, st') => (s, st')
  end.

(** The startup step between two typed providers: [bootstrap] takes the one
    to the other.  There is such a step from every provider whose five loads
    return lists of records ([startup_commit]); what is committed otherwise
    is what [bootstrap] says. *)
Definition startup_step (init : ModuleInit) (p p' : Provider) : Prop :=
  bootstrap init (run_time (state p)) (storage p)
  = (run_time (state p'), storage p').

(** The effect [useEffect(() => { if (isReady) void persistCollection(key, xs) },
    [isReady, xs])] of the collection of [e], run for the state [s]. *)
Definition persist_effect (e : Entity) (s : DataState) : Async () :=
  if isReady s
  then persistCollection (STORAGE_KEYS e) (collection e s)
  else ret ().

(** The five effects, all of which run after the commit that sets
    [isReady]. *)
Definition persist_effects (s : DataState) : Async () :=
  let* _ := persist_effect Part s in
  let* _ := persist_effect Revision s in
  let* _ := persist_effect TeamMember s in
  let* _ := persist_effect Client s in
  persist_effect Supplier s.

(** The state that startup commits when storage holds nothing. *)
Definition seededState (init : ModuleInit) : DataState :=
  mkState true (defaultParts init) (defaultRevisions init) (defaultTeam init)
    (defaultClients init) (defaultSuppliers init).

(** ** Runs of the store *)

Inductive Op :=
| OpCreate (e : Entity) (env : Entropy) (now : string) (input : JsObject)
| OpUpdate (e : Entity) (id : string) (clock : nat → string) (input : JsObject)
| OpDelete (e : Entity) (id : string).

Definition dispatch (op : Op) : DataState → Promise DataState :=
  match op with
  | OpCreate e env now input => createRecord e env now input
  | OpUpdate e id clock input => updateRecord e id clock input
  | OpDelete e id => deleteRecord e id
  end.

(** ** Vocabulary of the statements *)

(** The record that [update] puts in the place of a record [item] whose
    identity is [id]. *)
Definition rebuilt (e : Entity) (id now : string) (input item : JsObject)
  : JsObject :=
  match e with
  | Part =>
      <["id" := VString id]>
        (<["updatedAt" := VString now]> (spread (spread ∅ item) input))
  | _ => <["id" := VString id]> (spread (spread ∅ item) input)
  end.

(** The record that [create] puts in front of the collection. *)
Definition created (e : Entity) (gid now : string) (input : JsObject)
  : JsObject :=
  match e with
  | Part =>
      spread (<["updatedAt" := VString now]> (<["id" := VString gid]> ∅)) input
  | _ => spread (<["id" := VString gid]> ∅) input
  end.

(** Two states agree on every collection but the one of [e], and on the
    readiness flag. *)
Definition same_elsewhere (e : Entity) (s s' : DataState) : Prop :=
  isReady s' = isReady s ∧ ∀ e', e' ≠ e → collection e' s' = collection e' s.

Definition matching (id : string) (c : Collection) : Collection :=
  filter (λ item, id_is id item) c.

(** The identities of a collection, in order. *)
Definition ids (c : Collection) : list JsValue := (λ item, get item "id") <$> c.

(** [generateId()] returned an identity that no record of the collection
    carries, and the input of [create] has the declared type. *)
Definition admissible (op : Op) (s : DataState) : Prop :=
  match op with
  | OpCreate e env _ input =>
      (VString (generateId env) ∉ ids (collection e s))
      ∧ lacks (create_omits e) input
  | OpUpdate _ _ _ _ | OpDelete _ _ => True
  end.

Inductive reachable (s0 : DataState) : DataState → Prop :=
| reach_start : reachable s0 s0
| reach_step s s' op :
    reachable s0 s → admissible op s → dispatch op s = Fulfilled s' →
    reachable s0 s'.

(** The calls of [generateId()] made while the module is loaded returned
    pairwise distinct identities. *)
Definition fresh_seed_ids (init : ModuleInit) : Prop :=
  ∀ i j, i < 11 → j < 11 → seedId init i = seedId init j → i = j.

(** The identities of the collection of [e] after [op], from those before
    it. *)
Definition ids_after (op : Op) (e : Entity) (before : list JsValue)
  : list JsValue :=
  match op with
  | OpCreate e' env _ _ =>
      if decide (e' = e) then VString (generateId env) :: before else before
  | OpUpdate _ _ _ _ => before
  | OpDelete e' id =>
      if decide (e' = e) then filter (λ v, v ≠ VString id) before else before
  end.

(** Every record of the collection carries a string identity, and no two
    records carry the same. *)
Definition unique_ids (c : Collection) : Prop :=
  NoDup (ids c) ∧ Forall (λ v, ∃ id, v = VString id) (ids c).

(** Field-for-field equality of two records, as a reader of their fields
    sees it. *)
Definition same_fields (o o' : JsObject) : Prop := ∀ k, get o k = get o' k.

(** What is left of a field value after [JSON.stringify] and [JSON.parse]:
    nothing for [undefined], [null] for a number that is not finite. *)
Definition survives (v : JsValue) : option JsValue :=
  match json_of_value v with
  | Some j => value_of_json j
  | None => None
  end.

Definition jsonified (o : JsObject) : JsObject := omap survives o.

Definition finite (v : JsValue) : bool :=
  match v with
  | VNumber (Decimal _ _) => true
  | VNumber _ => false
  | _ => true
  end.

(** Every numeric field of every record is a finite number. *)
Definition all_finite (c : Collection) : Prop :=
  Forall (map_Forall (λ _ v, finite v = true)) c.

(** The text after a run of digits does not go on with a digit. *)
Definition digits_end (rest : list ascii) : Prop :=
  match rest with
  | [] => True
  | c :: _ => is_digit c = false
  end.

(** The text after a number does not go on with a digit, a point or an
    exponent mark. *)
Definition number_end (rest : list ascii) : Prop :=
  match rest with
  | [] => True
  | c :: _ =>
      is_digit c = false ∧ Ascii.eqb c "."%char = false
      ∧ Ascii.eqb c "e"%char = false ∧ Ascii.eqb c "E"%char = false
  end.

(** A number starts with a sign or a digit. *)
Definition number_start (c : ascii) : Prop := c = "-"%char ∨ is_digit c = true.

(** What the induction carries for a value: it is read back from its text,
    with fuel for its length, whatever follows it. *)
Definition reads_back (j : Json) : Prop :=
  ∀ n rest, length (print j) ≤ n → number_end rest →
            parse_value n (print j ++ rest) = Some (j, rest).

Definition member_text (kv : string * Json) : list ascii :=
  quote (fst kv) ++ ":"%char :: print (snd kv).

(** The storage reads and writes the key without failure. *)
Definition reliable (key : string) (st : AsyncStorage) : Prop :=
  (key ∉ unreadable st) ∧ (key ∉ unwritable st).

(** ** Sample data *)

Definition sampleInit : ModuleInit :=
  mkInit (λ k, mkEntropy true ("seed-" +:+ pretty k) 0 EmptyString)
         (λ k, "2025-01-01T00:00:00.00" +:+ pretty k +:+ "Z").

(** A platform without [crypto.randomUUID]. *)
Definition sampleEntropy : Entropy := mkEntropy false EmptyString 1748779200000 "3f9a2c".

Definition sampleClock (k : nat) : string := "2025-06-01T12:00:00.00" +:+ pretty k +:+ "Z".

Definition samplePart : JsObject :=
  obj [ ("id", VString "p1"); ("name", VString "Vela de ignicao");
        ("code", VString "RC-VI-100"); ("quantity", number 5 0);
        ("minStock", number 10 0); ("location", VString "Corredor C3");
        ("supplier", VString "NGK"); ("category", VString "Eletrica");
        ("unitCost", number 219 1);
        ("updatedAt", VString "2025-01-01T00:00:00.000Z") ].

(** The payload of [PartsScreen] for an edit: the form values and the
    [updatedAt] of the part being edited. *)
Definition samplePartEdit : JsObject :=
  obj [ ("name", VString "Vela de ignicao"); ("code", VString "RC-VI-100");
        ("quantity", number 7 0); ("minStock", number 10 0);
        ("location", VString "Corredor C3"); ("supplier", VString "NGK");
        ("category", VString "Eletrica"); ("unitCost", number 219 1);
        ("updatedAt", VString "2025-01-01T00:00:00.000Z") ].

Definition samplePartInput : JsObject := delete "updatedAt" samplePartEdit.

Definition sampleRevision : JsObject :=
  obj [ ("id", VString "r1"); ("clientName", VString "Juliana Souza");
        ("clientPhone", VString "(11) 97123-4001");
        ("vehicleModel", VString "Toyota Corolla 2022");
        ("licensePlate", VString "FRT-1023");
        ("serviceDescription", VString "Alinhamento");
        ("scheduledDate", VString "2025-06-02T00:00:00.000Z");
        ("scheduledTime", VString "14:00"); ("status", VString "agendada");
        ("priority", VString "media"); ("notes", VString "Ligar antes");
        ("remindersEnabled", VBoolean true) ].

(** An input of type [Omit<Revision, 'id'>] that leaves the optional
    [notes] and [assignedTo] out. *)
Definition sampleRevisionInput : JsObject :=
  obj [ ("clientName", VString "Juliana Souza");
        ("clientPhone", VString "(11) 97123-4001");
        ("vehicleModel", VString "Toyota Corolla 2022");
        ("licensePlate", VString "FRT-1023");
        ("serviceDescription", VString "Alinhamento");
        ("scheduledDate", VString "2025-06-02T00:00:00.000Z");
        ("scheduledTime", VString "14:00"); ("status", VString "concluida");
        ("priority", VString "media"); ("remindersEnabled", VBoolean true) ].

Definition sampleState : DataState :=
  mkState true [samplePart] [sampleRevision] [] [] [].

(** A part whose quantity was typed as [Infinity]. *)
Definition overflowPart : JsObject := <["quantity" := VNumber PosInfinity]> samplePart.

Definition emptyStorage : AsyncStorage := mkStorage ∅ ∅ ∅.

(** The storage that a successful write of [value] under [key] leaves. *)
Definition written (key value : string) (st : AsyncStorage) : AsyncStorage :=
  mkStorage (<[key := value]> (items st)) (unreadable st) (unwritable st).

(** A storage that holds nothing and rejects every write of the team key. *)
Definition fullStorage : AsyncStorage := mkStorage ∅ ∅ {[ STORAGE_KEYS TeamMember ]}.

(** A stored text that is no JSON. *)
Definition corruptText : string := "[{oops".

Definition corruptStorage : AsyncStorage :=
  mkStorage {[ STORAGE_KEYS TeamMember := corruptText ]} ∅ ∅.

(** A storage that holds the empty string under the team key. *)
Definition blankStorage : AsyncStorage :=
  mkStorage {[ STORAGE_KEYS TeamMember := EmptyString ]} ∅ ∅.


(** ** Sequences of operations *)

(** [await first; await next(...)]: the second call is made once the promise
    of the first is fulfilled. *)
Definition and_then {A B} (first : Promise A) (next : A → Promise B) : Promise B :=
  match first with
  | Fulfilled a => next a
  | Rejected => Rejected
  end.

Definition op_entity (op : Op) : Entity :=
  match op with
  | OpCreate e _ _ _ | OpUpdate e _ _ _ | OpDelete e _ => e
  end.

(** The state whose collection of [e] is [c]. *)
Definition with_collection (e : Entity) (c : Collection) (s : DataState) : DataState :=
  match e with
  | Part => setParts (λ _, c) s
  | Revision => setRevisions (λ _, c) s
  | TeamMember => setTeam (λ _, c) s
  | Client => setClients (λ _, c) s
  | Supplier => setSuppliers (λ _, c) s
  end.

(** What the updater that [op] queues makes of the collection it is applied
    to. *)
Definition updater (op : Op) (previous : Collection) : Collection :=
  match op with
  | OpCreate e env now input => created e (generateId env) now input :: previous
  | OpUpdate Part id clock input => updatePart_map id clock input 0 previous
  | OpUpdate e id _ input =>
      map (λ item, if id_is id item then rebuilt e id EmptyString input item else item)
        previous
  | OpDelete _ id => filter (λ item, negb (id_is id item)) previous
  end.

(** ** The mounted provider at work *)

(** One call of a store operation by a screen: the queued update is
    committed, and the effect of the collection that changed runs on the new
    state.  The write of the effect settles before the next call. *)
Definition run (op : Op) (p : Provider) : Provider :=
  match dispatch op (state p) with
  | Fulfilled s' =>
      mkProvider s' (snd (persist_effect (op_entity op) s' (storage p)))
  | Rejected => p
  end.

Definition runs (ops : list Op) (p : Provider) : Provider :=
  foldl (λ p' op, run op p') p ops.

(** The five effects that follow the commit of startup. *)
Definition after_effects (p : Provider) : Provider :=
  mkProvider (state p) (snd (persist_effects (state p) (storage p))).

(** Storage holds, under each of the five keys, the text of the collection
    in memory. *)
Definition mirrored (p : Provider) : Prop :=
  ∀ e, items (storage p) !! STORAGE_KEYS e
       = Some (JSON_stringify (collection e (state p))).

(** None of the five keys fails to be read or written. *)
Definition dependable (st : AsyncStorage) : Prop :=
  ∀ e, reliable (STORAGE_KEYS e) st.

(** The state that a start of the application commits when storage mirrors
    the state [s]. *)
Definition reloaded (s : DataState) : DataState :=
  mkState true (jsonified <$> parts s) (jsonified <$> revisions s)
    (jsonified <$> team s) (jsonified <$> clients s) (jsonified <$> suppliers s).

(** ** The revisions screen ([app/(tabs)/revisions.tsx]) *)

(** [!text] for a string, or for the [undefined] that destructuring gives
    for a missing element. *)
Definition blank (text : option string) : bool :=
  match text with
  | Some (String _ _) => false
  | _ => true
  end.

(** [text || undefined], and [text ? text : undefined]. *)
Definition or_undefined (text : string) : JsValue :=
  if blank (Some text) then VUndefined else VString text.

(** The values of the form, as [handleSubmit] hands them to the callback. *)
Record RevisionFormValues := mkRevisionFormValues {
  clientName : string;
  clientPhone : string;
  vehicleModel : string;
  licensePlate : string;
  serviceDescription : string;
  scheduledDate : string;
  scheduledTime : string;
  status : string;
  priority : string;
  assignedTo : string;
  notes : string;
  remindersEnabled : bool
}.

Section RevisionForm.

(** [String.prototype.trim] and [String.prototype.toUpperCase]. *)
Variable trim : string → string.
Variable toUpperCase : string → string.

Definition payload (formValues : RevisionFormValues) : JsObject :=
  obj [ ("clientName", VString (trim (clientName formValues)));
        ("clientPhone", VString (clientPhone formValues));
        ("vehicleModel", VString (trim (vehicleModel formValues)));
        ("licensePlate", VString (toUpperCase (licensePlate formValues)));
        ("serviceDescription", VString (trim (serviceDescription formValues)));
        ("scheduledDate", VString (scheduledDate formValues));
        ("scheduledTime", VString (scheduledTime formValues));
        ("status", VString (status formValues));
        ("priority", VString (priority formValues));
        ("assignedTo", or_undefined (assignedTo formValues));
        ("notes", or_undefined (trim (notes formValues)));
        ("remindersEnabled", VBoolean (remindersEnabled formValues)) ].

(** The callback of [onSubmit]: an update of the revision being edited, or a
    create when none is.  The identity of a record of type [Revision] is a
    string; the call is not typed otherwise. *)
Definition onSubmit (formValues : RevisionFormValues)
    (editingRevision : option JsObject) (env : Entropy) (s : DataState)
  : option (Promise DataState) :=
  match editingRevision with
  | Some revision =>
      match get revision "id" with
      | VString id => Some (updateRevision id (payload formValues) s)
      | _ => None
      end
  | None => Some (createRevision env (payload formValues) s)
  end.

End RevisionForm.


(** The accumulator of [counts].  It is created with the four properties
    below, and these four are the ones the screen reads; a property that the
    reducer adds under another name is never read. *)
Record StatusCounts := mkCounts {
  total : nat;
  agendada : nat;
  em_andamento : nat;
  concluida : nat
}.

(** [acc[key] += 1].  A key that is not a string names none of the four
    properties. *)
Definition increment (key : JsValue) (acc : StatusCounts) : StatusCounts :=
  match key with
  | VString k =>
      if String.eqb k "total"
      then mkCounts (S (total acc)) (agendada acc) (em_andamento acc) (concluida acc)
      else if String.eqb k "agendada"
      then mkCounts (total acc) (S (agendada acc)) (em_andamento acc) (concluida acc)
      else if String.eqb k "em andamento"
      then mkCounts (total acc) (agendada acc) (S (em_andamento acc)) (concluida acc)
      else if String.eqb k "concluida"
      then mkCounts (total acc) (agendada acc) (em_andamento acc) (S (concluida acc))
      else acc
  | _ => acc
  end.

Definition counts (revisions : Collection) : StatusCounts :=
  foldl (λ acc revision,
           increment (get revision "status") (increment (VString "total") acc))
    (mkCounts 0 0 0 0) revisions.

Definition filteredRevisions (statusFilter : string) (revisions : Collection)
  : Collection :=
  if String.eqb statusFilter "todas" then revisions
  else filter (λ revision, get revision "status" = VString statusFilter) revisions.

(** The keys of [statusFilters], one chip each. *)
Definition statusFilters : list string :=
  ["todas"; "agendada"; "em andamento"; "concluida"].

(** The number on the chip of [key]; [None] when [counts[key]] is none of
    the counters. *)
Definition labelCount (key : string) (c : StatusCounts) : option nat :=
  if String.eqb key "todas" then Some (total c)
  else if String.eqb key "total" then Some (total c)
  else if String.eqb key "agendada" then Some (agendada c)
  else if String.eqb key "em andamento" then Some (em_andamento c)
  else if String.eqb key "concluida" then Some (concluida c)
  else None.

(** The handler of the button [Concluir] of the card of [item]:
    [const { id, ...rest } = item; void updateRevision(id, { ...rest, status:
    'concluida' })].  The identity of a record of type [Revision] is a
    string; the call is not typed otherwise. *)
Definition onConcluir (item : JsObject) (s : DataState) : option (Promise DataState) :=
  match get item "id" with
  | VString id =>
      Some (updateRevision id
              (spread (delete "id" item) (<["status" := VString "concluida"]> ∅)) s)
  | _ => None
  end.

(** ** The dashboard ([DashboardScreen]) *)

(** [base] of [revisionStatusData], with the three properties it is created
    with. *)
Record StatusData := mkStatusData {
  data_agendada : nat;
  data_em_andamento : nat;
  data_concluida : nat
}.

(** [base[key] += 1]. *)
Definition tally (key : JsValue) (base : StatusData) : StatusData :=
  match key with
  | VString k =>
      if String.eqb k "agendada"
      then mkStatusData (S (data_agendada base)) (data_em_andamento base)
             (data_concluida base)
      else if String.eqb k "em andamento"
      then mkStatusData (data_agendada base) (S (data_em_andamento base))
             (data_concluida base)
      else if String.eqb k "concluida"
      then mkStatusData (data_agendada base) (data_em_andamento base)
             (S (data_concluida base))
      else base
  | _ => base
  end.

Definition revisionStatusData (revisions : Collection) : StatusData :=
  foldl (λ base revision, tally (get revision "status") base)
    (mkStatusData 0 0 0) revisions.

(** The heights of the three bars of the chart. *)
Definition revisionChartData (revisions : Collection) : list nat :=
  let data := revisionStatusData revisions in
  [data_agendada data; data_em_andamento data; data_concluida data].

(** ** The date field ([components/ui/date-field.tsx]) *)

Inductive Mode := DateMode | TimeMode.

(** [value.split(sep)]. *)
Fixpoint split (sep : ascii) (value : string) : list string :=
  match value with
  | EmptyString => [EmptyString]
  | String c rest =>
      if Ascii.eqb c sep then EmptyString :: split sep rest
      else match split sep rest with
           | first :: others => String c first :: others
           | [] => [String c EmptyString]
           end
  end.

Section DateField.

(** What the platform says about dates: [new Date(value)], which is [None]
    when [getTime()] is [NaN], and the two [pt-BR] renderings. *)
Variable Date : Type.
Variable new_Date : string → option Date.
Variable toLocaleDateString : Date → string.
Variable toLocaleTimeString : Date → string.

(** The text that the branch [mode === 'time'] returns, if it returns. *)
Definition hours_and_minutes (value : string) : option string :=
  let fields := split ":" value in
  let hours := fields !! 0 in
  let minutes := fields !! 1 in
  if negb (blank hours) && negb (blank minutes)
  then Some (default EmptyString hours +:+ ":" +:+ default EmptyString minutes)
  else None.

Definition formatValue (value : string) (mode : Mode) : string :=
  if blank (Some value)
  then match mode with
       | DateMode => "Selecione uma data"
       | TimeMode => "Selecione um horário"
       end
  else
    match (match mode with
           | TimeMode => hours_and_minutes value
           | DateMode => None
           end) with
    | Some text => text
    | None =>
        match new_Date value with
        | None =>
            match mode with
            | DateMode => "Selecione uma data"
            | TimeMode => value
            end
        | Some d =>
            match mode with
            | DateMode => toLocaleDateString d
            | TimeMode => toLocaleTimeString d
            end
        end
    end.

End DateField.

(** ** The theme provider ([providers/theme-provider.tsx]) *)

Inductive Scheme := light | dark.

(** [ColorSchemeName]: a scheme, or [null] or [undefined]. *)
Definition getNormalizedScheme (scheme : option Scheme) : Scheme :=
  match scheme with
  | Some dark => dark
  | _ => light
  end.

(** The two state variables of [AppThemeProvider], and what
    [Appearance.getColorScheme()] returns at the moment. *)
Record Theme := mkTheme {
  scheme : Scheme;
  followSystem : bool;
  system : option Scheme
}.

(** The provider as it is mounted. *)
Definition mountTheme (colorScheme : option Scheme) : Theme :=
  mkTheme (getNormalizedScheme colorScheme) true colorScheme.

Definition applyScheme (nextScheme : Scheme) (t : Theme) : Theme :=
  mkTheme nextScheme false (system t).

Definition toggleScheme (t : Theme) : Theme :=
  applyScheme (match scheme t with light => dark | dark => light end) t.

Definition enableSystem (t : Theme) : Theme :=
  mkTheme (getNormalizedScheme (system t)) true (system t).

(** The system changes its scheme.  The listener is subscribed while
    [followSystem] holds. *)
Definition appearanceChanged (colorScheme : option Scheme) (t : Theme) : Theme :=
  if followSystem t
  then mkTheme (getNormalizedScheme colorScheme) true colorScheme
  else mkTheme (scheme t) false colorScheme.

Inductive ThemeEvent :=
| AppearanceChanged (colorScheme : option Scheme)
| SetScheme (nextScheme : Scheme)
| ToggleScheme
| EnableSystem.

Definition handle (t : Theme) (ev : ThemeEvent) : Theme :=
  match ev with
  | AppearanceChanged colorScheme => appearanceChanged colorScheme t
  | SetScheme nextScheme => applyScheme nextScheme t
  | ToggleScheme => toggleScheme t
  | EnableSystem => enableSystem t
  end.

(** ** Vocabulary of the further statements *)

(** Two storages say the same about [key]. *)
Definition same_about (key : string) (st st' : AsyncStorage) : Prop :=
  items st' !! key = items st !! key
  ∧ unreadable st' = unreadable st ∧ unwritable st' = unwritable st.

(** The text has no hyphen. *)
Fixpoint dashless (s : string) : Prop :=
  match s with
  | EmptyString => True
  | String c rest => c ≠ "-"%char ∧ dashless rest
  end.

(** The text has no colon. *)
Fixpoint colonless (s : string) : Prop :=
  match s with
  | EmptyString => True
  | String c rest => c ≠ ":"%char ∧ colonless rest
  end.

(** The number of revisions whose status is [text]. *)
Definition with_status (text : string) (revisions : Collection) : nat :=
  length (filter (λ revision, get revision "status" = VString text) revisions).

(** The names of the properties of a record. *)
Definition keys (o : JsObject) : gset string := dom o.

(** The status of the revision is none of the three of [RevisionStatus]. *)
Definition undeclared_status (revision : JsObject) : Prop :=
  get revision "status" ≠ VString "agendada"
  ∧ get revision "status" ≠ VString "em andamento"
  ∧ get revision "status" ≠ VString "concluida".

(** ** More sample data *)

Definition sampleOps : list Op :=
  [ OpCreate Part sampleEntropy (sampleClock 0) samplePartInput;
    OpDelete Revision "r1" ].

Definition sampleTheme : Theme := mountTheme (Some dark).

Definition sampleEvents : list ThemeEvent :=
  [ToggleScheme; AppearanceChanged (Some light); EnableSystem;
   AppearanceChanged (Some dark)].

Definition sampleFormValues : RevisionFormValues :=
  mkRevisionFormValues "Juliana Souza" "(11) 97123-4001" "Toyota Corolla 2022"
    "frt-1023" "Alinhamento e balanceamento" "2025-06-02T00:00:00.000Z" "15:30"
    "em andamento" "alta" EmptyString EmptyString false.
(** ** Properties of the operations *)

Section ListFacts.
Context {A : Type}.

Lemma Forall2_map_graph (f : A → A) (l : list A) :
  Forall2 (λ x y, y = f x) l (map f l).
Proof. induction l as [|x l IH]; simpl; constructor; auto. Qed.

Lemma filter_all (P : A → Prop) `{∀ x, Decision (P x)} (l : list A) :
  Forall P l → filter P l = l.
Proof.
  induction 1 as [|x l Hx _ IH]; [done|].
  by rewrite filter_cons_True, IH.
Qed.

Lemma length_filter_split (p : A → bool) (l : list A) :
  length (filter (λ x, negb (p x)) l) + length (filter (λ x, p x) l)
  = length l.
Proof.
  induction l as [|x l IH]; [done|].
  rewrite !filter_cons. destruct (p x) eqn:Hp; simpl;
    repeat case_decide; simpl in *; try done; lia.
Qed.
End ListFacts.

Lemma spread_lookup (target src : JsObject) (k : string) :
  spread target src !! k
  = match src !! k with Some v => Some v | None => target !! k end.
Proof.
  unfold spread. rewrite lookup_union. destruct (src !! k), (target !! k); done.
Qed.

Lemma spread_empty (o : JsObject) : spread ∅ o = o.
Proof. unfold spread. apply (right_id_L ∅ (∪)). Qed.

Lemma id_is_true id item : id_is id item = true ↔ get item "id" = VString id.
Proof. unfold id_is. by rewrite bool_decide_eq_true. Qed.

Lemma id_is_false id item : id_is id item = false ↔ get item "id" ≠ VString id.
Proof. unfold id_is. by rewrite bool_decide_eq_false. Qed.

Lemma get_insert_eq (o : JsObject) k v : get (<[k := v]> o) k = v.
Proof. unfold get. by rewrite lookup_insert_eq. Qed.

Lemma rebuilt_id e id now input item :
  get (rebuilt e id now input item) "id" = VString id.
Proof. destruct e; apply get_insert_eq. Qed.

Lemma rebuilt_lookup e id now input item k :
  k ≠ "id" → (e = Part → k ≠ "updatedAt") →
  rebuilt e id now input item !! k
  = match input !! k with Some v => Some v | None => item !! k end.
Proof.
  intros Hid Hup.
  destruct e; unfold rebuilt;
    try (specialize (Hup eq_refl); rewrite (lookup_insert_ne _ "id") by done);
    rewrite lookup_insert_ne by done;
    by rewrite spread_lookup, spread_empty.
Qed.

Lemma rebuilt_updatedAt id now input item :
  rebuilt Part id now input item !! "updatedAt" = Some (VString now).
Proof.
  unfold rebuilt. rewrite lookup_insert_ne by done. apply lookup_insert_eq.
Qed.

Lemma updatePart_map_graph id clock input k previous :
  Forall2 (λ item item',
             if id_is id item
             then ∃ j, item' = rebuilt Part id (clock j) input item
             else item' = item)
    previous (updatePart_map id clock input k previous).
Proof.
  revert k. induction previous as [|item rest IH]; intros k; simpl.
  - constructor.
  - destruct (id_is id item) eqn:Hm; constructor; auto.
    + rewrite Hm. by exists k.
    + by rewrite Hm.
Qed.

Lemma update_map_graph e id input previous :
  e ≠ Part →
  Forall2 (λ item item',
             if id_is id item
             then ∃ j : nat, item' = rebuilt e id EmptyString input item
             else item' = item)
    previous
    (map (λ item, if id_is id item
                  then <["id" := VString id]> (spread (spread ∅ item) input)
                  else item) previous).
Proof.
  intros He.
  eapply Forall2_impl; [apply Forall2_map_graph|].
  intros item item' ->. simpl.
  destruct (id_is id item); [|done].
  exists 0. by destruct e.
Qed.

(** What [update] does to the collection of [e]: position by position, a
    record with the identity [id] is rebuilt and any other record is kept. *)
Lemma update_graph e id clock input s :
  ∃ s', updateRecord e id clock input s = Fulfilled s'
        ∧ same_elsewhere e s s'
        ∧ Forall2 (λ item item',
                     if id_is id item
                     then ∃ j, item' = rebuilt e id (clock j) input item
                     else item' = item)
            (collection e s) (collection e s').
Proof.
  destruct e; (eexists; split; [reflexivity|]); (split; [split; [done|]|]);
    try (intros []; simpl; congruence); simpl.
  - apply updatePart_map_graph.
  - eapply Forall2_impl; [by apply (update_map_graph Revision)|].
    simpl. intros item item'. by destruct (id_is id item).
  - eapply Forall2_impl; [by apply (update_map_graph TeamMember)|].
    simpl. intros item item'. by destruct (id_is id item).
  - eapply Forall2_impl; [by apply (update_map_graph Client)|].
    simpl. intros item item'. by destruct (id_is id item).
  - eapply Forall2_impl; [by apply (update_map_graph Supplier)|].
    simpl. intros item item'. by destruct (id_is id item).
Qed.

Lemma create_graph e env now input s :
  ∃ s', createRecord e env now input s = Fulfilled s'
        ∧ same_elsewhere e s s'
        ∧ collection e s' = created e (generateId env) now input :: collection e s.
Proof.
  destruct e; (eexists; split; [reflexivity|]); (split; [split; [done|]|done]);
    intros []; simpl; congruence.
Qed.

Lemma delete_graph e id s :
  ∃ s', deleteRecord e id s = Fulfilled s'
        ∧ same_elsewhere e s s'
        ∧ collection e s' = filter (λ item, negb (id_is id item)) (collection e s).
Proof.
  destruct e; (eexists; split; [reflexivity|]); (split; [split; [done|]|done]);
    intros []; simpl; congruence.
Qed.

Lemma state_ext (s s' : DataState) :
  isReady s' = isReady s → (∀ e, collection e s' = collection e s) → s' = s.
Proof.
  intros Hr Hc. destruct s, s'; simpl in *.
  pose proof (Hc Part). pose proof (Hc Revision). pose proof (Hc TeamMember).
  pose proof (Hc Client). pose proof (Hc Supplier). simpl in *. congruence.
Qed.

Lemma matching_nil_Forall id (c : Collection) :
  matching id c = [] ↔ Forall (λ item, id_is id item = false) c.
Proof.
  unfold matching. induction c as [|item c IH]; [by split|].
  rewrite filter_cons, Forall_cons. destruct (id_is id item) eqn:Hm.
  - rewrite decide_True by done. split; [done|]. by intros [? _].
  - rewrite decide_False by (by intros ?). rewrite IH. tauto.
Qed.

Lemma Forall2_same_on_unmatched id (P : JsObject → JsObject → Prop)
    (c c' : Collection) :
  Forall (λ item, id_is id item = false) c →
  Forall2 (λ item item', if id_is id item then P item item' else item' = item) c c' →
  c' = c.
Proof.
  intros Hno H2. induction H2 as [|item item' c c' Hh _ IH]; [done|].
  apply Forall_cons in Hno as [Hm Hno]. rewrite Hm in Hh. subst item'.
  f_equal. by apply IH.
Qed.

Lemma ids_update_graph e id (clock : nat → string) input (c c' : Collection) :
  Forall2 (λ item item',
             if id_is id item
             then ∃ j, item' = rebuilt e id (clock j) input item
             else item' = item) c c' →
  ids c' = ids c.
Proof.
  induction 1 as [|item item' c c' Hh _ IH]; [done|].
  unfold ids in *. rewrite !fmap_cons, IH. f_equal.
  destruct (id_is id item) eqn:Hm; [|by subst].
  destruct Hh as [j ->]. rewrite rebuilt_id. symmetry. by apply id_is_true.
Qed.

Lemma ids_filter id (c : Collection) :
  ids (filter (λ item, negb (id_is id item)) c)
  = filter (λ v, v ≠ VString id) (ids c).
Proof.
  unfold ids. induction c as [|item c IH]; [done|].
  rewrite fmap_cons. destruct (id_is id item) eqn:Hm.
  - rewrite filter_cons_False by (rewrite Hm; simpl; tauto).
    apply id_is_true in Hm.
    by rewrite filter_cons_False by (by intros ?).
  - rewrite filter_cons_True by (rewrite Hm; simpl; tauto).
    apply id_is_false in Hm.
    by rewrite filter_cons_True, fmap_cons, IH by done.
Qed.

Lemma created_id e gid now input :
  lacks (create_omits e) input → get (created e gid now input) "id" = VString gid.
Proof.
  intros Hl. unfold get, lacks in *.
  destruct e; apply Forall_cons in Hl as [Hid _];
    unfold created; rewrite spread_lookup, Hid;
    rewrite ?(lookup_insert_ne _ "updatedAt") by done;
    by rewrite lookup_insert_eq.
Qed.

Lemma created_updatedAt gid now input :
  lacks (create_omits Part) input →
  created Part gid now input !! "updatedAt" = Some (VString now).
Proof.
  intros Hl. unfold lacks in Hl. simpl in Hl.
  apply Forall_cons in Hl as [_ Hl]. apply Forall_cons in Hl as [Hup _].
  unfold created. by rewrite spread_lookup, Hup, lookup_insert_eq.
Qed.

Lemma created_lookup e gid now input k :
  k ∉ create_omits e → created e gid now input !! k = input !! k.
Proof.
  intros Hk. destruct e; unfold created; rewrite spread_lookup;
    destruct (input !! k); try done; simpl in Hk;
    rewrite !lookup_insert_ne by set_solver; done.
Qed.

Lemma created_carries e gid now input k v :
  input !! k = Some v → created e gid now input !! k = Some v.
Proof. intros Hk. destruct e; unfold created; by rewrite spread_lookup, Hk. Qed.

(** ** C1: update *)

(** C1 (amended): [update(id, input)] on a record whose identity is [id]
    keeps the identity, gives every field that [input] carries the value it
    has in [input], and leaves a field that [input] does not carry (an
    optional field left out) as it was; the size of the collection does not
    change.  For a Part, [updatedAt] is a reading of the
    clock taken during the update, whatever [updatedAt] the input carries. *)
Theorem update_merges_input_and_keeps_identity
    (e : Entity) (id : string) (clock : nat → string) (input : JsObject)
    (s : DataState) (i : nat) (item : JsObject) :
  collection e s !! i = Some item →
  id_is id item = true →
  ∃ s' item',
    updateRecord e id clock input s = Fulfilled s'
    ∧ collection e s' !! i = Some item'
    ∧ length (collection e s') = length (collection e s)
    ∧ get item "id" = VString id
    ∧ get item' "id" = VString id
    ∧ (∀ k, k ≠ "id" → (e = Part → k ≠ "updatedAt") →
         item' !! k = match input !! k with Some v => Some v | None => item !! k end)
    ∧ (e = Part → ∃ j, item' !! "updatedAt" = Some (VString (clock j))).
Proof.
  intros Hi Hm.
  destruct (update_graph e id clock input s) as (s' & Hs' & _ & Hg).
  destruct (Forall2_lookup_l _ _ _ _ _ Hg Hi) as (item' & Hi' & Hrel).
  rewrite Hm in Hrel. destruct Hrel as [j ->].
  exists s', (rebuilt e id (clock j) input item).
  repeat split; try done.
  - symmetry. by eapply Forall2_length.
  - by apply id_is_true.
  - apply rebuilt_id.
  - intros k Hk Hk'. by apply rebuilt_lookup.
  - intros ->. exists j. apply rebuilt_updatedAt.
Qed.

(** The edit of a part as [PartsScreen] submits it, with the old
    [updatedAt] in the payload: the stored [updatedAt] is the clock's. *)
Lemma update_merges_input_and_keeps_identity_witness :
  ∃ s' item',
    updateRecord Part "p1" sampleClock samplePartEdit sampleState = Fulfilled s'
    ∧ collection Part s' !! 0 = Some item'
    ∧ get item' "quantity" = number 7 0
    ∧ get samplePartEdit "updatedAt" = VString "2025-01-01T00:00:00.000Z"
    ∧ get item' "updatedAt" = VString (sampleClock 0).
Proof.
  destruct (update_merges_input_and_keeps_identity Part "p1" sampleClock
              samplePartEdit sampleState 0 samplePart)
    as (s' & item' & Hs' & Hi' & _); [reflexivity | reflexivity |].
  exists s', item'. split; [exact Hs'|]. split; [exact Hi'|].
  injection Hs' as <-. injection Hi' as <-. by vm_compute.
Defined.

(** C1 as stated fails: a revision that has notes is updated with an input
    of type [Omit<Revision, 'id'>] that carries no [notes]; the stored record
    keeps its notes, so its fields are not those of the input. *)
Lemma update_keeps_a_field_the_input_omits :
  conforms (entity_fields Revision) sampleRevision = true
  ∧ conforms (Omit (entity_fields Revision) ["id"]) sampleRevisionInput = true
  ∧ ∃ s' item',
      updateRecord Revision "r1" sampleClock sampleRevisionInput sampleState = Fulfilled s'
      ∧ collection Revision s' = [item']
      ∧ get item' "status" = VString "concluida"
      ∧ get sampleRevisionInput "notes" = VUndefined
      ∧ get item' "notes" = VString "Ligar antes"
      ∧ get item' "notes" ≠ get sampleRevisionInput "notes".
Proof.
  split; [by vm_compute|]. split; [by vm_compute|].
  eexists _, _. split; [reflexivity|]. split; [reflexivity|].
  by vm_compute.
Qed.

(** ** C2: create *)

(** C2: for an input of the declared type (no [id]; for a Part, no
    [updatedAt]), [create(x)] puts in front of the collection a record that
    has every field of [x], the generated identity and, for a Part, the
    current time stamp; the records that were there follow in their order,
    and the other collections are untouched. *)
Theorem create_prepends
    (e : Entity) (env : Entropy) (now : string) (input : JsObject) (s : DataState) :
  lacks (create_omits e) input →
  ∃ s' first,
    createRecord e env now input s = Fulfilled s'
    ∧ collection e s' = first :: collection e s
    ∧ same_elsewhere e s s'
    ∧ get first "id" = VString (generateId env)
    ∧ (e = Part → first !! "updatedAt" = Some (VString now))
    ∧ (∀ k v, input !! k = Some v → first !! k = Some v)
    ∧ (∀ k, k ∉ create_omits e → first !! k = input !! k).
Proof.
  intros Hl.
  destruct (create_graph e env now input s) as (s' & Hs' & Hel & Hc).
  exists s', (created e (generateId env) now input). repeat split; try done.
  - apply Hel.
  - apply Hel.
  - by apply created_id.
  - intros ->. by apply created_updatedAt.
  - intros k v. apply created_carries.
  - intros k. apply created_lookup.
Qed.

(** The declared input type is what keeps the generated identity in place:
    the input is spread after [id], so an [id] carried by an input of a wider
    type would be the identity of the new record. *)
Remark create_spreads_input_last (e : Entity) (gid now : string) (input : JsObject)
    (v : JsValue) :
  input !! "id" = Some v → get (created e gid now input) "id" = v.
Proof. intros Hid. unfold get. by rewrite (created_carries _ _ _ _ _ _ Hid). Qed.

Lemma create_prepends_witness :
  ∃ s' first,
    createRecord Part sampleEntropy (sampleClock 0) samplePartInput sampleState = Fulfilled s'
    ∧ collection Part s' = [first; samplePart]
    ∧ get first "id" = VString "1748779200000-3f9a2c"
    ∧ get first "quantity" = number 7 0
    ∧ get first "minStock" = number 10 0
    ∧ get first "updatedAt" = VString (sampleClock 0).
Proof.
  destruct (create_prepends Part sampleEntropy (sampleClock 0) samplePartInput sampleState)
    as (s' & first & Hs' & Hc & _).
  { repeat constructor. }
  exists s', first. split; [exact Hs'|]. split; [exact Hc|].
  injection Hs' as <-. injection Hc as <-. by vm_compute.
Defined.

(** ** C3, C4, C10: delete and the operations that find nothing *)

(** C3: when exactly one record has the identity [id], [delete(id)] yields a
    collection with one record less and none with that identity; when no
    record has it, the collection is unchanged and has the same size. *)
Theorem delete_one_or_none (e : Entity) (id : string) (s : DataState) (n : nat) :
  length (collection e s) = n →
  (length (matching id (collection e s)) = 1 →
     ∃ s', deleteRecord e id s = Fulfilled s'
           ∧ length (collection e s') = n - 1
           ∧ matching id (collection e s') = [])
  ∧ (matching id (collection e s) = [] →
     ∃ s', deleteRecord e id s = Fulfilled s'
           ∧ collection e s' = collection e s
           ∧ length (collection e s') = n).
Proof.
  intros Hn.
  destruct (delete_graph e id s) as (s' & Hs' & _ & Hc).
  pose proof (length_filter_split (id_is id) (collection e s)) as Hsplit.
  split; intros Hcount; exists s'; (split; [done|]); rewrite Hc.
  - split.
    + unfold matching in Hcount. lia.
    + apply matching_nil_Forall, Forall_forall. intros item Hin.
      apply list_elem_of_filter in Hin as [Hneg _].
      by destruct (id_is id item).
  - assert (filter (λ item, negb (id_is id item)) (collection e s) = collection e s)
      as ->; [|done].
    apply filter_all. apply matching_nil_Forall in Hcount.
    eapply Forall_impl; [exact Hcount|]. by intros item ->.
Qed.

Lemma delete_one_or_none_witness :
  (∃ s', deleteRecord Part "p1" sampleState = Fulfilled s'
         ∧ length (collection Part s') = 0
         ∧ matching "p1" (collection Part s') = [])
  ∧ (∃ s', deleteRecord Part "p9" sampleState = Fulfilled s'
           ∧ collection Part s' = [samplePart]
           ∧ length (collection Part s') = 1).
Proof.
  split.
  - apply (delete_one_or_none Part "p1" sampleState 1); reflexivity.
  - apply (delete_one_or_none Part "p9" sampleState 1); reflexivity.
Defined.

(** C4: when no record has the identity [id], [update(id, input)] and
    [delete(id)] resolve and leave the state as it was; and the promise of
    every store operation is fulfilled, whatever the state and the
    arguments. *)
Theorem not_found_is_a_noop_and_nothing_rejects
    (e : Entity) (id : string) (clock : nat → string) (input : JsObject)
    (s : DataState) :
  (matching id (collection e s) = [] →
     updateRecord e id clock input s = Fulfilled s ∧ deleteRecord e id s = Fulfilled s)
  ∧ (∀ e' env now id' clock' input' s0,
       createRecord e' env now input' s0 ≠ Rejected
       ∧ updateRecord e' id' clock' input' s0 ≠ Rejected
       ∧ deleteRecord e' id' s0 ≠ Rejected).
Proof.
  split.
  - intros Hnone. apply matching_nil_Forall in Hnone.
    destruct (update_graph e id clock input s) as (s1 & Hs1 & [Hr1 Ho1] & Hg).
    destruct (delete_graph e id s) as (s2 & Hs2 & [Hr2 Ho2] & Hc).
    rewrite Hs1, Hs2. split; f_equal; apply state_ext; try done.
    + intros e'. destruct (decide (e' = e)) as [->|Hne]; [|by apply Ho1].
      exact (Forall2_same_on_unmatched id
               (λ item item', ∃ j, item' = rebuilt e id (clock j) input item)
               _ _ Hnone Hg).
    + intros e'. destruct (decide (e' = e)) as [->|Hne]; [|by apply Ho2].
      rewrite Hc. apply filter_all.
      eapply Forall_impl; [exact Hnone|]. by intros item ->.
  - intros e' env now id' clock' input' s0.
    destruct (create_graph e' env now input' s0) as (? & -> & _).
    destruct (update_graph e' id' clock' input' s0) as (? & -> & _).
    destruct (delete_graph e' id' s0) as (? & -> & _). done.
Qed.

Lemma not_found_is_a_noop_and_nothing_rejects_witness :
  updateRecord Revision "r9" sampleClock sampleRevisionInput sampleState
  = Fulfilled sampleState
  ∧ deleteRecord Revision "r9" sampleState = Fulfilled sampleState.
Proof.
  apply (not_found_is_a_noop_and_nothing_rejects Revision "r9" sampleClock
           sampleRevisionInput sampleState).
  reflexivity.
Defined.

(** C10: [delete(id)] removes every record whose identity is [id], also when
    several records share it, and keeps the records with another identity,
    unchanged and in their order. *)
Theorem delete_removes_every_match (e : Entity) (id : string) (s : DataState) :
  ∃ s',
    deleteRecord e id s = Fulfilled s'
    ∧ matching id (collection e s') = []
    ∧ collection e s' `sublist_of` collection e s
    ∧ (∀ item, item ∈ collection e s'
               ↔ item ∈ collection e s ∧ id_is id item = false)
    ∧ filter (λ item, negb (id_is id item)) (collection e s') 
      = filter (λ item, negb (id_is id item)) (collection e s)
    ∧ length (collection e s') + length (matching id (collection e s))
      = length (collection e s).
Proof.
  destruct (delete_graph e id s) as (s' & Hs' & _ & Hc).
  exists s'. split; [done|]. rewrite Hc.
  assert (∀ item, item ∈ filter (λ item, negb (id_is id item)) (collection e s)
                  ↔ item ∈ collection e s ∧ id_is id item = false) as Hin.
  { intros item. rewrite list_elem_of_filter.
    destruct (id_is id item); simpl; intuition congruence. }
  repeat split.
  - apply matching_nil_Forall, Forall_forall. intros item Hi.
    by apply Hin in Hi as [_ ?].
  - apply sublist_filter.
  - by apply Hin.
  - by apply Hin.
  - by apply Hin.
  - apply filter_all, Forall_forall. intros item Hi. apply Hin in Hi as [_ ->]. done.
  - apply length_filter_split.
Qed.

(** Two stored records with the same identity go together. *)
Example delete_removes_duplicates :
  deleteRecord Part "p1" (mkState true [samplePart; overflowPart; <["id" := VString "p2"]> samplePart] [] [] [] [])
  = Fulfilled (mkState true [<["id" := VString "p2"]> samplePart] [] [] [] []).
Proof. reflexivity. Qed.

(** ** C8: identities *)

Lemma dispatch_ids (op : Op) (s s' : DataState) (e : Entity) :
  admissible op s → dispatch op s = Fulfilled s' →
  ids (collection e s') = ids_after op e (ids (collection e s)).
Proof.
  intros Hadm Hs'. destruct op as [e' env now input|e' id clock input|e' id];
    simpl in *.
  - destruct (create_graph e' env now input s) as (s1 & Hs1 & [_ Ho] & Hc).
    assert (s1 = s') as -> by congruence.
    destruct (decide (e' = e)) as [->|Hne].
    + rewrite Hc. unfold ids. rewrite fmap_cons. f_equal.
      apply created_id, Hadm.
    + by rewrite Ho.
  - destruct (update_graph e' id clock input s) as (s1 & Hs1 & [_ Ho] & Hg).
    assert (s1 = s') as -> by congruence.
    destruct (decide (e = e')) as [->|Hne]; [|by rewrite Ho].
    by eapply ids_update_graph.
  - destruct (delete_graph e' id s) as (s1 & Hs1 & [_ Ho] & Hc).
    assert (s1 = s') as -> by congruence.
    destruct (decide (e' = e)) as [->|Hne].
    + rewrite Hc. apply ids_filter.
    + by rewrite Ho.
Qed.

Lemma unique_ids_after (op : Op) (s : DataState) (e : Entity) (c' : Collection) :
  admissible op s → unique_ids (collection e s) →
  ids c' = ids_after op e (ids (collection e s)) →
  unique_ids c'.
Proof.
  intros Hadm [Hnd Hstr] Hids. unfold unique_ids. rewrite Hids.
  destruct op as [e' env now input|e' id clock input|e' id]; simpl in *.
  - destruct (decide (e' = e)) as [->|Hne]; [|done].
    destruct Hadm as [Hfresh _]. split.
    + by apply NoDup_cons.
    + apply Forall_cons. split; [by eexists | done].
  - done.
  - destruct (decide (e' = e)) as [->|Hne]; [|done]. split.
    + by apply NoDup_filter.
    + apply Forall_forall. intros v Hv.
      apply list_elem_of_filter in Hv as [_ Hv].
      by apply (proj1 (Forall_forall _ _) Hstr).
Qed.

Lemma seed_ids (init : ModuleInit) :
  ids (defaultParts init) = [VString (seedId init 2); VString (seedId init 3)]
  ∧ ids (defaultRevisions init)
    = [VString (seedId init 4); VString (seedId init 5); VString (seedId init 6)]
  ∧ ids (defaultTeam init) = [VString (seedId init 0); VString (seedId init 1)]
  ∧ ids (defaultClients init) = [VString (seedId init 7); VString (seedId init 8)]
  ∧ ids (defaultSuppliers init) = [VString (seedId init 9); VString (seedId init 10)].
Proof. repeat split; reflexivity. Qed.

Lemma seeded_unique_ids (init : ModuleInit) (e : Entity) :
  fresh_seed_ids init → unique_ids (collection e (seededState init)).
Proof.
  intros Hfresh.
  assert (∀ i j, i < 11 → j < 11 → i ≠ j →
                 VString (seedId init i) ≠ VString (seedId init j)) as Hne.
  { intros i j Hi Hj Hij [= Heq]. by apply Hij, Hfresh. }
  destruct (seed_ids init) as (Hp & Hr & Ht & Hc & Hs).
  unfold unique_ids.
  destruct e; simpl; rewrite ?Hp, ?Hr, ?Ht, ?Hc, ?Hs; split;
    try (repeat (apply Forall_cons; split; [by eexists|]); by apply Forall_nil);
    repeat (apply NoDup_cons; split;
            [rewrite ?elem_of_cons, elem_of_nil; intros Hin;
             repeat (destruct Hin as [Hin|Hin]; [by eapply Hne; [..|exact Hin]; lia|]);
             done|]);
    apply NoDup_nil_2.
Qed.

(** C8: from the seeded state, with [generateId()] returning identities that
    are not in use, every state that create, update and delete reach has
    identities that are unique within each collection; an identity enters a
    collection only as the generated identity of a created record, an update
    leaves the identities in place, position by position, and a delete only
    removes the identity it was given. *)
Theorem identities_unique_and_stable (init : ModuleInit) (s : DataState) :
  fresh_seed_ids init →
  reachable (seededState init) s →
  (∀ e, unique_ids (collection e s))
  ∧ (∀ op s', admissible op s → dispatch op s = Fulfilled s' →
       ∀ e, ids (collection e s') = ids_after op e (ids (collection e s))).
Proof.
  intros Hfresh Hreach. split.
  - induction Hreach as [|s s' op _ IH Hadm Hs'].
    + intros e. exact (seeded_unique_ids init e Hfresh).
    + intros e. eapply unique_ids_after; [exact Hadm | apply IH |].
      by apply dispatch_ids.
  - intros op s' Hadm Hs' e. by apply dispatch_ids.
Qed.

Lemma sampleInit_fresh : fresh_seed_ids sampleInit.
Proof.
  intros i j _ _ Heq. simpl in Heq.
  apply (inj pretty). by simplify_eq/=.
Qed.

Lemma identities_unique_and_stable_witness :
  ∃ s1, createRecord Part sampleEntropy (sampleClock 0) samplePartInput (seededState sampleInit)
        = Fulfilled s1
        ∧ (∀ e, unique_ids (collection e s1)).
Proof.
  eexists. split; [reflexivity|].
  apply (identities_unique_and_stable sampleInit).
  - exact sampleInit_fresh.
  - eapply (reach_step _ _ _ (OpCreate Part sampleEntropy (sampleClock 0) samplePartInput));
      [apply reach_start | | reflexivity].
    split; [|repeat constructor].
    vm_compute. intros Hin. 
    repeat (apply elem_of_cons in Hin as [Hin|Hin]; [discriminate Hin|]).
    by apply elem_of_nil in Hin.
Defined.

(** ** JSON: reading back what was written *)

Lemma parse_string_body_quote_char (c : ascii) (rest : list ascii) :
  parse_string_body (quote_char c ++ rest)
  = match parse_string_body rest with
    | Some (cs, rest') => Some (c :: cs, rest')
    | None => None
    end.
Proof. destruct c as [[] [] [] [] [] [] [] []]; reflexivity. Qed.

Lemma parse_string_body_quoted (cs rest : list ascii) :
  parse_string_body (flat_map quote_char cs ++ dquote :: rest) = Some (cs, rest).
Proof.
  induction cs as [|c cs IH]; [done|].
  simpl flat_map. rewrite <- app_assoc, parse_string_body_quote_char. by rewrite IH.
Qed.

Lemma chars_of_uint_digits (u : Decimal.uint) :
  Forall (λ c, is_digit c = true) (chars_of_uint u).
Proof. induction u; simpl; constructor; done. Qed.

Lemma uint_of_chars_of_uint (u : Decimal.uint) : uint_of_chars (chars_of_uint u) = u.
Proof. induction u; simpl; by f_equal. Qed.

Lemma span_digits_app (ds rest : list ascii) :
  Forall (λ c, is_digit c = true) ds → digits_end rest →
  span_digits (ds ++ rest) = (ds, rest).
Proof.
  intros Hds Hend. induction Hds as [|c ds Hc _ IH]; cbn [app span_digits].
  - destruct rest as [|c rest]; [done|]. cbn [span_digits digits_end] in *.
    by rewrite Hend.
  - by rewrite Hc, IH.
Qed.

Lemma N_of_digits_zeros (k : nat) (ds : list ascii) :
  N_of_digits (replicate k "0"%char ++ ds) = N_of_digits ds.
Proof. induction k as [|k IH]; [done|]. exact IH. Qed.

Lemma N_of_digits_of_N (n : N) : N_of_digits (digits_of_N n) = n.
Proof.
  unfold N_of_digits, digits_of_N. rewrite uint_of_chars_of_uint.
  apply DecimalN.Unsigned.of_to.
Qed.

Lemma digits_of_N_nonempty (n : N) : digits_of_N n ≠ [].
Proof.
  unfold digits_of_N. destruct n as [|p]; [done|].
  simpl. pose proof (DecimalPos.Unsigned.to_uint_nonnil p) as Hnn.
  destruct (Pos.to_uint p); done.
Qed.

(** The digits of a number do not start with a zero, unless the number is
    zero and has the one digit. *)
Lemma digits_of_N_leading_zero (n : N) (more : list ascii) :
  digits_of_N n = "0"%char :: more → more = [].
Proof.
  unfold digits_of_N. intros Hz.
  assert (Decimal.unorm (N.to_uint n) = N.to_uint n) as Hnorm.
  { rewrite <- DecimalN.Unsigned.to_of. by rewrite DecimalN.Unsigned.of_to. }
  destruct (N.to_uint n) as [|u| | | | | | | | |]; try discriminate Hz.
  cbn [chars_of_uint] in Hz. injection Hz as <-.
  unfold Decimal.unorm in Hnorm. rewrite nzhead_D0 in Hnorm.
  destruct (Decimal.nzhead u) eqn:Hh;
    try (exfalso; apply (nzhead_nonzero u u); by rewrite Hh).
  by injection Hnorm as <-.
Qed.

Lemma digit_is_no_sign (d : ascii) : is_digit d = true → Ascii.eqb d "-"%char = false.
Proof. destruct d as [[] [] [] [] [] [] [] []]; done. Qed.

Lemma scaled_plain (m : Z) (scale : nat) : scaled m scale 0 = JNum m scale.
Proof.
  unfold scaled. destruct scale as [|k].
  - simpl. by rewrite Z.mul_1_r.
  - rewrite (proj2 (Z.leb_gt _ _)) by lia. f_equal. lia.
Qed.

Lemma parse_fraction_none (rest : list ascii) :
  number_end rest → parse_fraction rest = Some ([], rest).
Proof.
  destruct rest as [|c rest]; [done|]. intros (_ & Hp & _). simpl. by rewrite Hp.
Qed.

Lemma parse_fraction_some (f : ascii) (frac rest : list ascii) :
  Forall (λ c, is_digit c = true) (f :: frac) → digits_end rest →
  parse_fraction ("."%char :: (f :: frac) ++ rest) = Some (f :: frac, rest).
Proof.
  intros Hfrac Hend. cbn [parse_fraction]. 
  change (Ascii.eqb "." ".") with true. cbv iota.
  by rewrite span_digits_app.
Qed.

Lemma parse_exponent_none (rest : list ascii) :
  number_end rest → parse_exponent rest = Some (0%Z, rest).
Proof.
  destruct rest as [|c rest]; [done|]. intros (_ & _ & He & HE).
  simpl. by rewrite He, HE.
Qed.

Lemma number_end_digits_end (rest : list ascii) : number_end rest → digits_end rest.
Proof. destruct rest; [done|]. by intros [? _]. Qed.

(** Reading a numeral made of an integer part, and of a fraction when
    [frac] is not empty. *)
Lemma parse_number_numeral (negative : bool) (int frac rest : list ascii) :
  Forall (λ c, is_digit c = true) int →
  Forall (λ c, is_digit c = true) frac →
  (∃ d more, int = d :: more ∧ (d = "0"%char → more = [])) →
  number_end rest →
  parse_number ((if negative then ["-"%char] else [])
                ++ int
                ++ (match frac with [] => [] | _ :: _ => "."%char :: frac end)
                ++ rest)
  = Some (JNum (let n := Z.of_N (N_of_digits (int ++ frac)) in
                if negative then (- n)%Z else n) (length frac), rest).
Proof.
  intros Hint Hfrac (d & more & -> & Hzero) Hend.
  assert (is_digit d = true) as Hd by (by apply Forall_cons in Hint as [? _]).
  assert (Ascii.eqb d "0"%char && negb (bool_decide (more = [])) = false) as Hlead.
  { destruct (Ascii.eqb_spec d "0"%char) as [->|]; [|done].
    rewrite Hzero by done. done. }
  set (tail := match frac with [] => [] | _ :: _ => "."%char :: frac end ++ rest).
  assert (digits_end tail) as Htail.
  { subst tail. destruct frac; [|done]. by apply number_end_digits_end. }
  assert (parse_sign ((if negative then ["-"%char] else []) ++ (d :: more) ++ tail)
          = (negative, (d :: more) ++ tail)) as Hsign.
  { destruct negative; cbn [app parse_sign]; [done|]. by rewrite digit_is_no_sign. }
  unfold parse_number. rewrite Hsign, span_digits_app by done. rewrite Hlead.
  subst tail. destruct frac as [|f frac].
  - cbn [app]. rewrite parse_fraction_none, parse_exponent_none by done.
    by rewrite scaled_plain.
  - cbn [app]. rewrite (app_comm_cons frac), parse_fraction_some; [| done |].
    2:{ by apply number_end_digits_end. }
    rewrite parse_exponent_none by done. by rewrite scaled_plain.
Qed.

(** The shape of a written number: a sign or none, an integer part without
    a needless zero, and [scale] digits of fraction after a point. *)
Lemma print_number_shape (m : Z) (scale : nat) :
  ∃ int frac,
    print_number m scale
    = (if (m <? 0)%Z then ["-"%char] else [])
      ++ int ++ (match frac with [] => [] | _ :: _ => "."%char :: frac end)
    ∧ Forall (λ c, is_digit c = true) int
    ∧ Forall (λ c, is_digit c = true) frac
    ∧ (∃ d more, int = d :: more ∧ (d = "0"%char → more = []))
    ∧ length frac = scale
    ∧ N_of_digits (int ++ frac) = Z.abs_N m.
Proof.
  unfold print_number.
  assert (N_of_digits (digits_of_N (Z.abs_N m)) = Z.abs_N m) as Hval
    by apply N_of_digits_of_N.
  assert (Forall (λ c, is_digit c = true) (digits_of_N (Z.abs_N m))) as Hdd
    by apply chars_of_uint_digits.
  pose proof (digits_of_N_nonempty (Z.abs_N m)) as Hds.
  pose proof (digits_of_N_leading_zero (Z.abs_N m)) as Hzero.
  generalize dependent (digits_of_N (Z.abs_N m)). intros ds Hval Hdd Hds Hzero.
  assert (0 < length ds) as Hlen by (destruct ds; [done|simpl; lia]).
  remember (replicate (S scale - length ds) "0"%char ++ ds) as padded eqn:Hpadded.
  assert (Forall (λ c, is_digit c = true) padded) as Hdigits.
  { subst padded. apply Forall_app. split; [by apply Forall_replicate|done]. }
  assert (length padded = (S scale - length ds) + length ds) as Hpad.
  { subst padded. by rewrite length_app, length_replicate. }
  assert (N_of_digits padded = Z.abs_N m) as Hvalp.
  { subst padded. by rewrite N_of_digits_zeros. }
  remember (length padded - scale) as cut eqn:Hcut.
  assert (length (drop cut padded) = scale) as Hfrac.
  { rewrite length_drop. lia. }
  exists (take cut padded), (drop cut padded).
  split; [|split; [by apply Forall_take|split; [by apply Forall_drop|split; [|split]]]].
  - do 2 f_equal. destruct scale, (drop cut padded); simpl in *; done.
  - destruct (decide (length ds ≤ scale)) as [Hshort|Hlong].
    + assert (cut = 1) as -> by lia.
      subst padded. destruct (S scale - length ds) as [|k] eqn:Hk; [lia|].
      eexists _, _. split; [reflexivity|done].
    + subst padded. replace (S scale - length ds) with 0 in * by lia.
      cbn [replicate app] in *.
      destruct ds as [|d ds']; [done|].
      destruct cut as [|cut']; [simpl in *; lia|].
      eexists _, _. split; [reflexivity|]. intros ->.
      rewrite (Hzero ds') in * by done. by destruct cut'.
  - done.
  - by rewrite take_drop.
Qed.

Lemma print_number_parse (m : Z) (scale : nat) (rest : list ascii) :
  number_end rest →
  parse_number (print_number m scale ++ rest) = Some (JNum m scale, rest).
Proof.
  intros Hend.
  destruct (print_number_shape m scale)
    as (int & frac & -> & Hint & Hfrac & Hlead & Hlen & Hval).
  rewrite <- !app_assoc.
  rewrite (parse_number_numeral (m <? 0)%Z int frac) by done.
  rewrite Hval, Hlen, N2Z.inj_abs_N. cbv zeta.
  destruct (m <? 0)%Z eqn:Hneg; [apply Z.ltb_lt in Hneg|apply Z.ltb_ge in Hneg];
    do 3 f_equal; lia.
Qed.

Lemma print_number_head (m : Z) (scale : nat) :
  ∃ c tl, print_number m scale = c :: tl ∧ number_start c.
Proof.
  destruct (print_number_shape m scale)
    as (int & frac & -> & Hint & _ & (d & more & -> & _) & _).
  destruct (m <? 0)%Z.
  - eexists _, _. split; [reflexivity|]. by left.
  - eexists _, _. split; [reflexivity|]. right. by apply Forall_cons in Hint as [? _].
Qed.

Lemma number_start_plain (c : ascii) :
  number_start c →
  is_ws c = false ∧ Ascii.eqb c "{"%char = false ∧ Ascii.eqb c "["%char = false
  ∧ Ascii.eqb c dquote = false ∧ Ascii.eqb c "t"%char = false
  ∧ Ascii.eqb c "f"%char = false ∧ Ascii.eqb c "n"%char = false
  ∧ Ascii.eqb c "]"%char = false ∧ Ascii.eqb c "}"%char = false.
Proof.
  intros [->|Hd]; [done|].
  destruct c as [[] [] [] [] [] [] [] []]; done.
Qed.

Lemma parse_value_number (n : nat) (c : ascii) (tl : list ascii) :
  number_start c → parse_value (S n) (c :: tl) = parse_number (c :: tl).
Proof.
  intros Hc. apply number_start_plain in Hc
    as (Hws & Ho & Ha & Hq & Ht & Hf & Hn & _).
  cbn [parse_value skip_ws]. by rewrite Hws, Ho, Ha, Hq, Ht, Hf, Hn.
Qed.

Section JsonInduction.
Variable P : Json → Prop.
Hypothesis Hnull : P JNull.
Hypothesis Hbool : ∀ b, P (JBool b).
Hypothesis Hnum : ∀ m scale, P (JNum m scale).
Hypothesis Hstr : ∀ s, P (JStr s).
Hypothesis Harr : ∀ items, Forall P items → P (JArr items).
Hypothesis Hobj : ∀ members, Forall (λ kv, P (snd kv)) members → P (JObj members).

Fixpoint Json_nested_ind (j : Json) : P j :=
  match j with
  | JNull => Hnull
  | JBool b => Hbool b
  | JNum m scale => Hnum m scale
  | JStr s => Hstr s
  | JArr items =>
      Harr items
        ((fix go (l : list Json) : Forall P l :=
            match l with
            | [] => @List.Forall_nil _ _
            | x :: l' => @List.Forall_cons _ P x l' (Json_nested_ind x) (go l')
            end) items)
  | JObj members =>
      Hobj members
        ((fix go (l : list (string * Json)) : Forall (λ kv, P (snd kv)) l :=
            match l with
            | [] => @List.Forall_nil _ _
            | (k, v) :: l' =>
                @List.Forall_cons _ (λ kv, P (snd kv)) (k, v) l' (Json_nested_ind v) (go l')
            end) members)
  end.
End JsonInduction.

Lemma join_cons_cons (sep : ascii) (t t' : list ascii) (ts : list (list ascii)) :
  join sep (t :: t' :: ts) = t ++ sep :: join sep (t' :: ts).
Proof. done. Qed.

Lemma join_singleton (sep : ascii) (t : list ascii) : join sep [t] = t.
Proof. simpl. apply app_nil_r. Qed.

(** The first character of a written value is no white space and closes
    nothing. *)
Lemma print_head (j : Json) :
  ∃ c tl, print j = c :: tl ∧ is_ws c = false
          ∧ Ascii.eqb c "]"%char = false ∧ Ascii.eqb c "}"%char = false.
Proof.
  destruct j as [|[]|m scale|s|items|members];
    try (eexists _, _; split; [reflexivity|done]).
  destruct (print_number_head m scale) as (c & tl & Hp & Hc).
  apply number_start_plain in Hc. exists c, tl. simpl. tauto.
Qed.

Lemma skip_ws_print (j : Json) (rest : list ascii) :
  skip_ws (print j ++ rest) = print j ++ rest.
Proof.
  destruct (print_head j) as (c & tl & -> & Hws & _).
  cbn [app skip_ws]. by rewrite Hws.
Qed.

Lemma print_nonempty (j : Json) : 0 < length (print j).
Proof. destruct (print_head j) as (c & tl & -> & _). simpl. lia. Qed.

(** Decide the tests on the characters that stand at the head of the text. *)
Ltac chars := cbn [skip_ws is_ws Ascii.eqb Bool.eqb andb orb dquote].

Lemma parse_elements_printed (items : list Json) :
  items ≠ [] → Forall reads_back items →
  ∀ n rest, length (join ","%char (map print items)) + 1 ≤ n →
            parse_elements n (join ","%char (map print items) ++ "]"%char :: rest)
            = Some (items, rest).
Proof.
  intros Hne Hall. induction Hall as [|x xs Hx Hxs IH]; [done|].
  intros n rest Hn. destruct n as [|n]; [lia|].
  destruct xs as [|y ys].
  - cbn [map] in *. rewrite join_singleton in *.
    cbn [parse_elements]. rewrite Hx; [|lia|done]. by chars.
  - cbn [map] in *. rewrite join_cons_cons in *.
    rewrite length_app in Hn. cbn [length] in Hn.
    rewrite <- app_assoc. cbn [app parse_elements].
    rewrite Hx; [|lia|done]. chars.
    rewrite (IH ltac:(done)); [done|lia].
Qed.

Lemma length_member_text (kv : string * Json) :
  length (print (snd kv)) + 3 ≤ length (member_text kv).
Proof.
  unfold member_text, quote. rewrite length_app. cbn [length].
  rewrite length_app. simpl. lia.
Qed.

Lemma parse_members_printed (members : list (string * Json)) :
  members ≠ [] → Forall (λ kv, reads_back (snd kv)) members →
  ∀ n rest, length (join ","%char (map member_text members)) + 1 ≤ n →
            parse_members n (join ","%char (map member_text members) ++ "}"%char :: rest)
            = Some (members, rest).
Proof.
  intros Hne Hall. induction Hall as [|[k v] ms Hv Hms IH]; [done|].
  intros n rest Hn. destruct n as [|n]; [lia|].
  pose proof (length_member_text (k, v)) as Hlen. cbn [snd] in Hv, Hlen.
  destruct ms as [|kv' ms'].
  - cbn [map] in *. rewrite join_singleton in *.
    unfold member_text, quote in *. cbn [fst snd app] in *.
    rewrite <- !app_assoc. cbn [app parse_members]. chars.
    rewrite parse_string_body_quoted. chars.
    rewrite Hv; [|lia|done]. chars.
    by rewrite string_of_list_ascii_of_string.
  - cbn [map] in *. rewrite join_cons_cons in *.
    rewrite length_app in Hn. cbn [length] in Hn.
    unfold member_text at 1, quote. cbn [fst snd app].
    rewrite <- !app_assoc. cbn [app parse_members]. chars.
    rewrite parse_string_body_quoted. chars.
    rewrite Hv; [|lia|done]. chars.
    rewrite (IH ltac:(done)); [|lia].
    by rewrite string_of_list_ascii_of_string.
Qed.

(** Every value is read back from the text that [print] writes for it. *)
Lemma parse_value_print (j : Json) : reads_back j.
Proof.
  induction j as [|b|m scale|s|items IH|members IH] using Json_nested_ind;
    intros n rest Hn Hend.
  - destruct n as [|n]; [simpl in Hn; lia|]. done.
  - destruct n as [|n]; [destruct b; simpl in Hn; lia|]. by destruct b.
  - pose proof (print_nonempty (JNum m scale)) as Hpos.
    destruct n as [|n]; [lia|]. cbn [print] in *.
    destruct (print_number_head m scale) as (c & tl & Hp & Hc).
    rewrite Hp. cbn [app]. rewrite parse_value_number by done.
    rewrite app_comm_cons, <- Hp. by apply print_number_parse.
  - destruct n as [|n]; [simpl in Hn; lia|].
    cbn [print]. unfold quote. cbn [app parse_value]. chars.
    rewrite <- app_assoc. cbn [app]. rewrite parse_string_body_quoted.
    by rewrite string_of_list_ascii_of_string.
  - destruct n as [|n]; [simpl in Hn; lia|].
    cbn [print] in *. cbn [length] in Hn. rewrite length_app in Hn. cbn [length] in Hn.
    destruct items as [|x xs]; [done|].
    cbn [app parse_value]. chars. rewrite <- app_assoc. cbn [app].
    destruct (print_head x) as (c & tl & Hp & Hws & Hb & _).
    cbn [map]. 
    assert (∃ tl', join ","%char (print x :: map print xs) ++ "]"%char :: rest
                   = c :: tl') as [tl' Htl].
    { cbn [join]. rewrite Hp. by eexists. }
    rewrite Htl. cbn [skip_ws]. rewrite Hws, Hb. rewrite <- Htl.
    change (print x :: map print xs) with (map print (x :: xs)).
    rewrite parse_elements_printed; [done|done|done|lia].
  - destruct n as [|n]; [simpl in Hn; lia|].
    cbn [print] in *. cbn [length] in Hn. rewrite length_app in Hn. cbn [length] in Hn.
    destruct members as [|[k v] ms]; [done|].
    cbn [app parse_value]. chars. rewrite <- app_assoc. cbn [app].
    change (map (λ kv, quote kv.1 ++ ":"%char :: print kv.2) ((k, v) :: ms))
      with (map member_text ((k, v) :: ms)) in *.
    assert (∃ tl', join ","%char (map member_text ((k, v) :: ms)) ++ "}"%char :: rest
                   = dquote :: tl') as [tl' Htl].
    { cbn [map join]. unfold member_text at 1, quote. cbn [app]. by eexists. }
    rewrite Htl. chars. rewrite <- Htl.
    rewrite parse_members_printed; [done|done|done|lia].
Qed.

(** [JSON.parse] reads back any value from the text written for it. *)
Lemma JSON_parse_print (j : Json) :
  JSON_parse (string_of_list_ascii (print j)) = Some j.
Proof.
  unfold JSON_parse. rewrite list_ascii_of_string_of_list_ascii.
  rewrite <- (app_nil_r (print j)) at 2.
  rewrite parse_value_print; [done|lia|done].
Qed.

(** ** Records through JSON *)

(** Building the record member by member is the same as keeping, of each
    field, what survives. *)
Lemma record_of_members_fold (fields : list (string * JsValue)) (acc : JsObject) :
  foldl (λ acc kv,
           match acc, value_of_json (snd kv) with
           | Some o, Some v => Some (<[fst kv := v]> o)
           | _, _ => None
           end) (Some acc)
    (omap (λ kv, pair (fst kv) <$> json_of_value (snd kv)) fields)
  = Some (foldl (λ o kv, match survives (snd kv) with
                         | Some v => <[fst kv := v]> o
                         | None => o
                         end) acc fields).
Proof.
  revert acc. induction fields as [|[k v] fields IH]; intros acc; [done|].
  cbn [omap list_omap foldl fst snd]. unfold survives at 2.
  destruct (json_of_value v) as [j|] eqn:Hj; cbn [fmap option_fmap option_map foldl fst snd].
  - assert (∃ w, value_of_json j = Some w) as [w Hw].
    { destruct v as [| |b|[]|s]; simplify_eq/=; by eexists. }
    rewrite Hw. apply IH.
  - apply IH.
Qed.

Lemma surviving_fields_lookup (fields : list (string * JsValue)) :
  NoDup (fields.*1) →
  ∀ k w,
    foldl (λ o kv, match survives (snd kv) with
                   | Some v => <[fst kv := v]> o
                   | None => o
                   end) (∅ : JsObject) fields !! k = Some w
    ↔ ∃ v, (k, v) ∈ fields ∧ survives v = Some w.
Proof.
  induction fields as [|[k0 v0] fields IH] using rev_ind; intros Hnd k w.
  - simpl. rewrite lookup_empty. split; [done|]. intros (v & Hin & _).
    by apply elem_of_nil in Hin.
  - rewrite fmap_app in Hnd. apply NoDup_app in Hnd as (Hnd & Hfresh & _).
    rewrite foldl_app. cbn [foldl fst snd].
    assert (∀ v, (k0, v) ∉ fields) as Hk0.
    { intros v Hin. apply (Hfresh k0); [|simpl; left].
      apply list_elem_of_fmap. by exists (k0, v). }
    setoid_rewrite elem_of_app. setoid_rewrite list_elem_of_singleton.
    destruct (survives v0) as [w0|] eqn:Hs.
    + destruct (decide (k = k0)) as [->|Hne].
      * rewrite lookup_insert_eq. split.
        -- intros [= <-]. exists v0. auto.
        -- intros (v & [Hin|[= ->]] & Hv); [by apply Hk0 in Hin|congruence].
      * rewrite lookup_insert_ne by done. rewrite (IH Hnd). split.
        -- intros (v & Hin & Hv). exists v. auto.
        -- intros (v & [Hin|[= -> ->]] & Hv); [by exists v|done].
    + rewrite (IH Hnd). split.
      * intros (v & Hin & Hv). exists v. auto.
      * intros (v & [Hin|[= -> ->]] & Hv); [by exists v|congruence].
Qed.

Lemma record_of_json_of_record (o : JsObject) :
  record_of_json (json_of_record o) = Some (jsonified o).
Proof.
  unfold json_of_record, record_of_json, record_of_members.
  rewrite record_of_members_fold. f_equal.
  apply map_eq. intros k. apply option_eq. intros w.
  rewrite surviving_fields_lookup by apply NoDup_fst_map_to_list.
  unfold jsonified. rewrite lookup_omap, bind_Some.
  by setoid_rewrite elem_of_map_to_list.
Qed.

Lemma collection_of_json_of_collection (c : Collection) :
  collection_of_json (json_of_collection c) = Some (jsonified <$> c).
Proof.
  unfold json_of_collection, collection_of_json.
  induction c as [|o c IH]; [done|].
  rewrite !fmap_cons. cbn [mapM]. rewrite record_of_json_of_record.
  simpl. by rewrite IH.
Qed.

(** The round trip of [JSON.stringify] and [JSON.parse] on a collection. *)
Lemma JSON_round_trip (c : Collection) :
  JSON_parse (JSON_stringify c) = Some (json_of_collection c)
  ∧ cast (json_of_collection c) = Records (jsonified <$> c).
Proof.
  split; [apply JSON_parse_print|].
  unfold cast. by rewrite collection_of_json_of_collection.
Qed.

Lemma JSON_stringify_not_empty (c : Collection) : JSON_stringify c ≠ EmptyString.
Proof. done. Qed.

(** A finite value survives as it is; what does not survive reads as
    [undefined] before and after. *)
Lemma jsonified_same_fields (o : JsObject) :
  map_Forall (λ _ v, finite v = true) o → same_fields o (jsonified o).
Proof.
  intros Hfin k. unfold get, jsonified. rewrite lookup_omap.
  destruct (o !! k) as [v|] eqn:Hk; [|done].
  apply Hfin in Hk. by destruct v as [| |b|[]|s].
Qed.

Lemma jsonified_all_finite (c : Collection) :
  all_finite c → Forall2 same_fields c (jsonified <$> c).
Proof.
  induction 1 as [|o c Ho _ IH]; [constructor|].
  rewrite fmap_cons. constructor; [by apply jsonified_same_fields|done].
Qed.

(** ** Loading and persisting *)

Lemma getItem_readable key st :
  key ∉ unreadable st → getItem key st = (Fulfilled (items st !! key), st).
Proof. intros Hk. unfold getItem. by rewrite decide_False. Qed.

Lemma getItem_unreadable key st :
  key ∈ unreadable st → getItem key st = (Rejected, st).
Proof. intros Hk. unfold getItem. by rewrite decide_True. Qed.

Lemma setItem_writable key value st :
  key ∉ unwritable st →
  setItem key value st
  = (Fulfilled (), mkStorage (<[key := value]> (items st)) (unreadable st) (unwritable st)).
Proof. intros Hk. unfold setItem. by rewrite decide_False. Qed.

Lemma setItem_unwritable key value st :
  key ∈ unwritable st → setItem key value st = (Rejected, st).
Proof. intros Hk. unfold setItem. by rewrite decide_True. Qed.

Lemma persist_writable key c st :
  key ∉ unwritable st →
  persistCollection key c st = (Fulfilled (), written key (JSON_stringify c) st).
Proof.
  intros Hk. unfold persistCollection, try_catch. by rewrite setItem_writable.
Qed.

Lemma persist_unwritable key c st :
  key ∈ unwritable st → persistCollection key c st = (Fulfilled (), st).
Proof.
  intros Hk. unfold persistCollection, try_catch. by rewrite setItem_unwritable.
Qed.

Lemma load_unreadable key fallback st :
  key ∈ unreadable st →
  loadCollection key fallback st = (Fulfilled (Records fallback), st).
Proof.
  intros Hk. unfold loadCollection, try_catch, bind. by rewrite getItem_unreadable.
Qed.

Lemma load_falsy_writable key fallback st :
  key ∉ unreadable st → falsy (items st !! key) = true → key ∉ unwritable st →
  loadCollection key fallback st
  = (Fulfilled (Records fallback), written key (JSON_stringify fallback) st).
Proof.
  intros Hr Hf Hw. unfold loadCollection, try_catch, bind.
  rewrite getItem_readable, Hf by done. by rewrite setItem_writable.
Qed.

Lemma load_falsy_unwritable key fallback st :
  key ∉ unreadable st → falsy (items st !! key) = true → key ∈ unwritable st →
  loadCollection key fallback st = (Fulfilled (Records fallback), st).
Proof.
  intros Hr Hf Hw. unfold loadCollection, try_catch, bind.
  rewrite getItem_readable, Hf by done. by rewrite setItem_unwritable.
Qed.

Lemma falsy_text raw : raw ≠ EmptyString → falsy (Some raw) = false.
Proof. intros Hne. simpl. by rewrite bool_decide_false. Qed.

Lemma load_syntax_error key fallback st raw :
  key ∉ unreadable st → items st !! key = Some raw → raw ≠ EmptyString →
  JSON_parse raw = None →
  loadCollection key fallback st = (Fulfilled (Records fallback), st).
Proof.
  intros Hr Hraw Hne Hparse. unfold loadCollection, try_catch, bind.
  rewrite getItem_readable, Hraw, falsy_text by done.
  unfold parse_or_throw. by rewrite Hparse.
Qed.

Lemma load_null key fallback st raw :
  key ∉ unreadable st → items st !! key = Some raw → raw ≠ EmptyString →
  JSON_parse raw = Some JNull →
  loadCollection key fallback st = (Fulfilled (Records fallback), st).
Proof.
  intros Hr Hraw Hne Hparse. unfold loadCollection, try_catch, bind.
  rewrite getItem_readable, Hraw, falsy_text by done.
  unfold parse_or_throw. by rewrite Hparse.
Qed.

Lemma load_parsed key fallback st raw j :
  key ∉ unreadable st → items st !! key = Some raw → raw ≠ EmptyString →
  JSON_parse raw = Some j → j ≠ JNull →
  loadCollection key fallback st = (Fulfilled (cast j), st).
Proof.
  intros Hr Hraw Hne Hparse Hj. unfold loadCollection, try_catch, bind.
  rewrite getItem_readable, Hraw, falsy_text by done.
  unfold parse_or_throw. rewrite Hparse. by destruct j.
Qed.

(** The promise of [loadCollection] is always fulfilled. *)
Lemma load_never_rejects key fallback st :
  ∃ loaded st', loadCollection key fallback st = (Fulfilled loaded, st').
Proof.
  unfold loadCollection, try_catch.
  match goal with |- context [bind ?m ?f st] => destruct (bind m f st) as [[a|] st'] end;
    eauto.
Qed.

(** What a load does is a function of what storage says about its key. *)
Lemma load_cases key fallback st :
  loadCollection key fallback st
  = if decide (key ∈ unreadable st) then (Fulfilled (Records fallback), st)
    else if falsy (items st !! key)
         then (Fulfilled (Records fallback),
               if decide (key ∈ unwritable st) then st
               else written key (JSON_stringify fallback) st)
         else match items st !! key ≫= JSON_parse with
              | Some JNull | None => (Fulfilled (Records fallback), st)
              | Some j => (Fulfilled (cast j), st)
              end.
Proof.
  unfold loadCollection, try_catch, bind, getItem, setItem, written.
  destruct (decide (key ∈ unreadable st)); [done|].
  destruct (falsy (items st !! key)) eqn:Hf.
  - by destruct (decide (key ∈ unwritable st)).
  - unfold parse_or_throw. destruct (items st !! key) as [raw|]; [|done].
    simpl. destruct (JSON_parse raw) as [[]|]; done.
Qed.

Lemma load_writes_or_not key fallback st :
  ∃ r, loadCollection key fallback st = (r, st)
       ∨ loadCollection key fallback st
         = (r, written key (JSON_stringify fallback) st).
Proof.
  rewrite load_cases. repeat (case_decide || case_match); eauto.
Qed.

(** A load does not see what was written under another key. *)
Lemma load_after_write key key' value fallback st :
  key ≠ key' →
  loadCollection key fallback (written key' value st)
  = (let '(r, st') := loadCollection key fallback st in (r, written key' value st')).
Proof.
  intros Hne. rewrite !load_cases. cbn [written items unreadable unwritable].
  rewrite lookup_insert_ne by done.
  repeat (case_decide || case_match); try done.
  unfold written. cbn [items unreadable unwritable]. by rewrite insert_insert_ne.
Qed.

Lemma written_commute key key' value value' st :
  key ≠ key' →
  written key value (written key' value' st) = written key' value' (written key value st).
Proof.
  intros Hne. unfold written. cbn [items unreadable unwritable].
  by rewrite insert_insert_ne.
Qed.

(** The five loads of [Promise.all] work on five different keys: the order
    in which two of them run does not matter. *)
Lemma loads_commute key1 key2 fallback1 fallback2 st :
  key1 ≠ key2 →
  (let '(r1, st1) := loadCollection key1 fallback1 st in
   let '(r2, st2) := loadCollection key2 fallback2 st1 in (r1, r2, st2))
  = (let '(r2, st2) := loadCollection key2 fallback2 st in
     let '(r1, st1) := loadCollection key1 fallback1 st2 in (r1, r2, st1)).
Proof.
  intros Hne.
  destruct (load_writes_or_not key1 fallback1 st) as [r1 [H1|H1]],
           (load_writes_or_not key2 fallback2 st) as [r2 [H2|H2]];
    rewrite H1, H2, ?load_after_write, ?H1, ?H2 by done; try done.
  by rewrite written_commute.
Qed.

Lemma bootstrap_never_rejects init st :
  ∃ results st', bootstrap_loads init st = (Fulfilled results, st').
Proof.
  unfold bootstrap_loads, bind.
  destruct (load_never_rejects (STORAGE_KEYS Part) (defaultParts init) st)
    as (r1 & st1 & ->).
  destruct (load_never_rejects (STORAGE_KEYS Revision) (defaultRevisions init) st1)
    as (r2 & st2 & ->).
  destruct (load_never_rejects (STORAGE_KEYS TeamMember) (defaultTeam init) st2)
    as (r3 & st3 & ->).
  destruct (load_never_rejects (STORAGE_KEYS Client) (defaultClients init) st3)
    as (r4 & st4 & ->).
  destruct (load_never_rejects (STORAGE_KEYS Supplier) (defaultSuppliers init) st4)
    as (r5 & st5 & ->).
  by eexists _, _.
Qed.

(** The six updates of [bootstrap] on a typed state, when what the loads
    returned are lists of records. *)
Lemma run_time_commit sp sr stm sc ss (s : DataState) :
  Runtime.apply_updates
    (Runtime.bootstrap_updates (Records sp) (Records sr) (Records stm) (Records sc)
       (Records ss))
    (run_time s)
  = run_time (apply_updates (bootstrap_updates sp sr stm sc ss) s).
Proof. reflexivity. Qed.

(** There is a startup step from every provider whose five loads return
    lists of records: the six updates of [bootstrap] are committed to the
    state the provider has by then. *)
Lemma startup_commit init s st st' sp sr stm sc ss :
  bootstrap_loads init st
  = (Fulfilled (Records sp, Records sr, Records stm, Records sc, Records ss), st') →
  startup_step init (mkProvider s st)
    (mkProvider (apply_updates (bootstrap_updates sp sr stm sc ss) s) st').
Proof.
  intros Hloads. unfold startup_step, bootstrap. cbn [state storage].
  by rewrite Hloads, run_time_commit.
Qed.

Lemma STORAGE_KEYS_inj : Inj (=) (=) STORAGE_KEYS.
Proof. intros [] []; by intros [=]. Qed.

(** Startup over a storage that holds none of the five keys and rejects
    nothing. *)
Lemma bootstrap_from_nothing init st :
  (∀ e, (STORAGE_KEYS e ∉ unreadable st) ∧ (STORAGE_KEYS e ∉ unwritable st)
        ∧ items st !! STORAGE_KEYS e = None) →
  ∃ st',
    bootstrap_loads init st
    = (Fulfilled (Records (defaultParts init), Records (defaultRevisions init),
                  Records (defaultTeam init), Records (defaultClients init),
                  Records (defaultSuppliers init)), st')
    ∧ ∀ e, items st' !! STORAGE_KEYS e = Some (JSON_stringify (defaults init e)).
Proof.
  intros Hst.
  pose proof (Hst Part) as (Hr1 & Hw1 & Ha1).
  pose proof (Hst Revision) as (Hr2 & Hw2 & Ha2).
  pose proof (Hst TeamMember) as (Hr3 & Hw3 & Ha3).
  pose proof (Hst Client) as (Hr4 & Hw4 & Ha4).
  pose proof (Hst Supplier) as (Hr5 & Hw5 & Ha5).
  eexists. split.
  - unfold bootstrap_loads, bind.
    rewrite load_falsy_writable; [|done|by rewrite Ha1|done].
    rewrite load_falsy_writable;
      [|done|by cbn [written items]; rewrite lookup_insert_ne, Ha2|done].
    rewrite load_falsy_writable;
      [|done|by cbn [written items]; rewrite !lookup_insert_ne, Ha3|done].
    rewrite load_falsy_writable;
      [|done|by cbn [written items]; rewrite !lookup_insert_ne, Ha4|done].
    rewrite load_falsy_writable;
      [|done|by cbn [written items]; rewrite !lookup_insert_ne, Ha5|done].
    reflexivity.
  - intros []; cbn [written items defaults];
      rewrite ?(lookup_insert_ne _ (STORAGE_KEYS Supplier)) by done;
      rewrite ?(lookup_insert_ne _ (STORAGE_KEYS Client)) by done;
      rewrite ?(lookup_insert_ne _ (STORAGE_KEYS TeamMember)) by done;
      rewrite ?(lookup_insert_ne _ (STORAGE_KEYS Revision)) by done;
      by rewrite lookup_insert_eq.
Qed.

(** ** C5: seeding *)

(** C5 (amended): when the stored value of a key is absent at startup, the
    load resolves to the seed list exactly; storage then holds the serialized
    seed list under the key when it accepts the write, and is left as it was
    when it rejects the write.  Starting from empty storage, the store
    becomes ready with each collection equal to its seed list and stored
    under its key, and the team holds the two seeded members, Renato
    Albuquerque and Isabela Monteiro. *)
Theorem absent_key_is_seeded
    (init : ModuleInit) (key : string) (fallback : Collection) (st : AsyncStorage) :
  key ∉ unreadable st →
  items st !! key = None →
  (∃ st',
     loadCollection key fallback st = (Fulfilled (Records fallback), st')
     ∧ (key ∉ unwritable st → items st' !! key = Some (JSON_stringify fallback))
     ∧ (key ∈ unwritable st → st' = st))
  ∧ (∃ p',
       startup_step init (mkProvider initialState emptyStorage) p'
       ∧ isReady (state p') = true
       ∧ (∀ e, collection e (state p') = defaults init e
               ∧ items (storage p') !! STORAGE_KEYS e
                 = Some (JSON_stringify (defaults init e)))
       ∧ (λ member, get member "name") <$> team (state p')
         = [VString "Renato Albuquerque"; VString "Isabela Monteiro"]).
Proof.
  intros Hr Habsent. split.
  - destruct (decide (key ∈ unwritable st)) as [Hw|Hw].
    + exists st. rewrite load_falsy_unwritable; [|done|by rewrite Habsent|done].
      by repeat split.
    + eexists. rewrite load_falsy_writable; [|done|by rewrite Habsent|done].
      split; [done|]. split; [|done]. intros _. apply lookup_insert_eq.
  - destruct (bootstrap_from_nothing init emptyStorage) as (st' & Hloads & Hstored).
    { intros e. repeat split; set_solver. }
    eexists. split; [by apply startup_commit|].
    split; [done|]. split; [|done].
    intros e. split; [by destruct e|apply Hstored].
Qed.

Lemma absent_key_is_seeded_witness :
  ∃ st',
    loadCollection (STORAGE_KEYS TeamMember) (defaultTeam sampleInit) emptyStorage
    = (Fulfilled (Records (defaultTeam sampleInit)), st')
    ∧ items st' !! STORAGE_KEYS TeamMember
      = Some (JSON_stringify (defaultTeam sampleInit)).
Proof.
  destruct (absent_key_is_seeded sampleInit (STORAGE_KEYS TeamMember)
              (defaultTeam sampleInit) emptyStorage)
    as [(st' & Hload & Hstored & _) _]; [set_solver | done |].
  exists st'. split; [exact Hload|]. apply Hstored. set_solver.
Defined.

(** C5 as stated fails: the stored value is absent and the write of the seed
    list is rejected; the collection is seeded in memory, and storage still
    holds nothing under the key, also after the persistence effect has run. *)
Lemma seed_write_can_be_rejected :
  items fullStorage !! STORAGE_KEYS TeamMember = None
  ∧ loadCollection (STORAGE_KEYS TeamMember) (defaultTeam sampleInit) fullStorage
    = (Fulfilled (Records (defaultTeam sampleInit)), fullStorage)
  ∧ persist_effect TeamMember (seededState sampleInit) fullStorage
    = (Fulfilled (), fullStorage)
  ∧ items fullStorage !! STORAGE_KEYS TeamMember
    ≠ Some (JSON_stringify (defaultTeam sampleInit)).
Proof.
  split; [done|]. split; [|split; [|done]].
  - apply load_falsy_unwritable; [set_solver|done|set_solver].
  - apply persist_unwritable. set_solver.
Qed.

(** ** C6: a stored value that cannot be read or parsed *)

(** C6 (amended): when the stored value of a key cannot be read, or is a text
    other than the empty string that cannot be parsed (or parses to [null]),
    the load resolves to the seed records, never rejects, and leaves storage
    as it was: the stored value is still in place when the load returns.  It
    stays there until the store is ready: the persistence effect then writes
    the serialized in-memory collection, the seed list, over it when storage
    accepts the write.  A stored empty string is treated as an absent value:
    the load itself writes the seed list over it. *)
Theorem unreadable_or_corrupt_falls_back
    (key : string) (fallback : Collection) (st : AsyncStorage) (raw : string) :
  (key ∈ unreadable st)
  ∨ ((key ∉ unreadable st) ∧ items st !! key = Some raw ∧ raw ≠ EmptyString
     ∧ (JSON_parse raw = None ∨ JSON_parse raw = Some JNull)) →
  loadCollection key fallback st = (Fulfilled (Records fallback), st)
  ∧ (∀ e s, key = STORAGE_KEYS e → isReady s = true → collection e s = fallback →
            (key ∉ unwritable st) →
            ∃ st', persist_effect e s st = (Fulfilled (), st')
                   ∧ items st' !! key = Some (JSON_stringify fallback))
  ∧ (∀ st0, (key ∉ unreadable st0) → items st0 !! key = Some EmptyString →
            (key ∉ unwritable st0) →
            ∃ st', loadCollection key fallback st0 = (Fulfilled (Records fallback), st')
                   ∧ items st' !! key = Some (JSON_stringify fallback)).
Proof.
  intros Hcase. split; [|split].
  - destruct Hcase as [Hu|(Hr & Hraw & Hne & [Hp|Hp])].
    + by apply load_unreadable.
    + by eapply load_syntax_error.
    + by eapply load_null.
  - intros e s -> Hready Hc Hw. unfold persist_effect. rewrite Hready, Hc.
    eexists. split; [by apply persist_writable|]. apply lookup_insert_eq.
  - intros st0 Hr Hblank Hw. eexists.
    split; [apply load_falsy_writable; [done|by rewrite Hblank|done]|].
    apply lookup_insert_eq.
Qed.

Lemma unreadable_or_corrupt_falls_back_witness :
  loadCollection (STORAGE_KEYS TeamMember) (defaultTeam sampleInit) corruptStorage
  = (Fulfilled (Records (defaultTeam sampleInit)), corruptStorage)
  ∧ items corruptStorage !! STORAGE_KEYS TeamMember = Some corruptText.
Proof.
  split; [|reflexivity].
  apply (unreadable_or_corrupt_falls_back (STORAGE_KEYS TeamMember)
           (defaultTeam sampleInit) corruptStorage corruptText).
  right. split; [set_solver|]. split; [reflexivity|]. split; [discriminate|].
  left. reflexivity.
Defined.

(** C6 as stated fails twice.  An empty stored string exists and cannot be
    parsed, and the load writes the seed list over it.  A corrupt text is kept
    by the load, and is overwritten with the seed list by the persistence
    effect that runs once startup has made the store ready. *)
Lemma corrupt_value_is_overwritten :
  (items blankStorage !! STORAGE_KEYS TeamMember = Some EmptyString
   ∧ JSON_parse EmptyString = None
   ∧ ∃ st',
       loadCollection (STORAGE_KEYS TeamMember) (defaultTeam sampleInit) blankStorage
       = (Fulfilled (Records (defaultTeam sampleInit)), st')
       ∧ items st' !! STORAGE_KEYS TeamMember
         = Some (JSON_stringify (defaultTeam sampleInit)))
  ∧ (items corruptStorage !! STORAGE_KEYS TeamMember = Some corruptText
     ∧ JSON_parse corruptText = None
     ∧ ∃ p' st'',
         startup_step sampleInit (mkProvider initialState corruptStorage) p'
         ∧ team (state p') = defaultTeam sampleInit
         ∧ items (storage p') !! STORAGE_KEYS TeamMember = Some corruptText
         ∧ persist_effects (state p') (storage p') = (Fulfilled (), st'')
         ∧ items st'' !! STORAGE_KEYS TeamMember
           = Some (JSON_stringify (defaultTeam sampleInit))).
Proof.
  split.
  - split; [reflexivity|]. split; [reflexivity|].
    eexists. split; [apply load_falsy_writable; [set_solver|done|set_solver]|].
    apply lookup_insert_eq.
  - split; [reflexivity|]. split; [reflexivity|].
    eexists (mkProvider _ _), _. split; [apply startup_commit; by vm_compute|].
    split; [reflexivity|]. split; [by vm_compute|].
    split; [by vm_compute|]. by vm_compute.
Qed.

(** ** C7: persist, then load *)

(** C7 (amended): over a storage that accepts the write and the read of the
    key, persisting a collection and loading the key again yields the
    collection as JSON keeps it: a field whose value is [undefined] is gone
    and a number that is not finite has become [null].  When every number of
    the collection is finite, what is loaded is equal to the original field
    for field, for every record. *)
Theorem persist_then_load
    (key : string) (c fallback : Collection) (st : AsyncStorage) :
  reliable key st →
  ∃ st1,
    persistCollection key c st = (Fulfilled (), st1)
    ∧ items st1 !! key = Some (JSON_stringify c)
    ∧ loadCollection key fallback st1 = (Fulfilled (Records (jsonified <$> c)), st1)
    ∧ (all_finite c → Forall2 same_fields c (jsonified <$> c)).
Proof.
  intros [Hr Hw]. exists (written key (JSON_stringify c) st).
  split; [by apply persist_writable|].
  split; [apply lookup_insert_eq|].
  split; [|apply jsonified_all_finite].
  destruct (JSON_round_trip c) as [Hparse Hcast].
  rewrite <- Hcast.
  eapply load_parsed; [done|apply lookup_insert_eq|apply JSON_stringify_not_empty|
                       exact Hparse|done].
Qed.

Lemma persist_then_load_witness :
  ∃ st1,
    persistCollection (STORAGE_KEYS Part) (defaultParts sampleInit) emptyStorage
    = (Fulfilled (), st1)
    ∧ loadCollection (STORAGE_KEYS Part) [] st1
      = (Fulfilled (Records (defaultParts sampleInit)), st1).
Proof.
  destruct (persist_then_load (STORAGE_KEYS Part) (defaultParts sampleInit) []
              emptyStorage) as (st1 & Hp & _ & Hl & _).
  { split; set_solver. }
  exists st1. split; [exact Hp|]. rewrite Hl. do 3 f_equal.
Defined.

(** C7 as stated fails: a part whose quantity is [Infinity] has the type
    [Part]; once persisted and loaded, its quantity is [null]. *)
Lemma infinite_quantity_is_not_read_back :
  conforms (entity_fields Part) overflowPart = true
  ∧ ∃ st1 loaded,
      persistCollection (STORAGE_KEYS Part) [overflowPart] emptyStorage
      = (Fulfilled (), st1)
      ∧ loadCollection (STORAGE_KEYS Part) [] st1 = (Fulfilled (Records [loaded]), st1)
      ∧ get overflowPart "quantity" = VNumber PosInfinity
      ∧ get loaded "quantity" = VNull
      ∧ ¬ same_fields overflowPart loaded.
Proof.
  split; [by vm_compute|].
  eexists _, _. split; [by vm_compute|]. split; [by vm_compute|].
  split; [by vm_compute|]. split; [by vm_compute|].
  intros Hsame. specialize (Hsame "quantity"). by vm_compute in Hsame.
Qed.

(** ** How the operations compose *)

Lemma dispatch_updater (op : Op) (s : DataState) :
  dispatch op s
  = Fulfilled (with_collection (op_entity op)
                 (updater op (collection (op_entity op) s)) s).
Proof. destruct op as [[]|[]|[]]; reflexivity. Qed.

Lemma collection_with_collection (e : Entity) (c : Collection) (s : DataState) :
  collection e (with_collection e c s) = c.
Proof. by destruct e. Qed.

Lemma collection_with_other (e e' : Entity) (c : Collection) (s : DataState) :
  e' ≠ e → collection e' (with_collection e c s) = collection e' s.
Proof. by destruct e, e'. Qed.

Lemma isReady_with_collection (e : Entity) (c : Collection) (s : DataState) :
  isReady (with_collection e c s) = isReady s.
Proof. by destruct e. Qed.

Lemma with_collection_twice (e : Entity) (c c' : Collection) (s : DataState) :
  with_collection e c (with_collection e c' s) = with_collection e c s.
Proof. by destruct e. Qed.

Lemma with_collection_same (e : Entity) (s : DataState) :
  with_collection e (collection e s) s = s.
Proof. by destruct e, s. Qed.

Lemma with_collection_commute (e e' : Entity) (c c' : Collection) (s : DataState) :
  e ≠ e' →
  with_collection e c (with_collection e' c' s)
  = with_collection e' c' (with_collection e c s).
Proof. by destruct e, e'. Qed.

(** Two calls in a row, on the collection of one entity type. *)
Lemma and_then_same_entity (op op' : Op) (s : DataState) :
  op_entity op' = op_entity op →
  and_then (dispatch op s) (dispatch op')
  = Fulfilled (with_collection (op_entity op)
                 (updater op' (updater op (collection (op_entity op) s))) s).
Proof.
  intros He. rewrite (dispatch_updater op). simpl.
  rewrite dispatch_updater, He, collection_with_collection.
  by rewrite with_collection_twice.
Qed.

Lemma delete_delete (id id' : string) (c : Collection) :
  filter (λ item, negb (id_is id item)) (filter (λ item, negb (id_is id' item)) c)
  = filter (λ item, negb (id_is id' item)) (filter (λ item, negb (id_is id item)) c).
Proof.
  induction c as [|item c IH]; [done|].
  rewrite !filter_cons.
  destruct (id_is id item) eqn:H1, (id_is id' item) eqn:H2; simpl;
    rewrite ?filter_cons, ?H1, ?H2; simpl; by rewrite IH.
Qed.

Lemma delete_idem (id : string) (c : Collection) :
  filter (λ item, negb (id_is id item)) (filter (λ item, negb (id_is id item)) c)
  = filter (λ item, negb (id_is id item)) c.
Proof.
  induction c as [|item c IH]; [done|].
  rewrite !filter_cons.
  destruct (id_is id item) eqn:H1; simpl; rewrite ?filter_cons, ?H1; simpl;
    by rewrite IH.
Qed.

Lemma delete_absent (id : string) (c : Collection) :
  VString id ∉ ids c → filter (λ item, negb (id_is id item)) c = c.
Proof.
  induction c as [|item c IH]; [done|].
  unfold ids. rewrite fmap_cons, not_elem_of_cons. intros [Hne Hc].
  rewrite filter_cons.
  assert (id_is id item = false) as -> by (apply id_is_false; congruence).
  simpl. f_equal. by apply IH.
Qed.

Lemma id_is_rebuilt (e : Entity) (id id' now : string) (input item : JsObject) :
  id_is id' (rebuilt e id now input item) = bool_decide (id = id').
Proof.
  unfold id_is. rewrite rebuilt_id.
  apply bool_decide_ext. split; congruence.
Qed.

Lemma id_is_agree (id id' : string) (item : JsObject) :
  id_is id item = true → id_is id' item = bool_decide (id = id').
Proof.
  intros Hid%id_is_true. unfold id_is. rewrite Hid.
  apply bool_decide_ext. split; congruence.
Qed.

Lemma updatePart_map_delete id id' clock input k (c : Collection) :
  filter (λ item, negb (id_is id item)) (updatePart_map id' clock input k c)
  = updatePart_map id' clock input k (filter (λ item, negb (id_is id item)) c).
Proof.
  revert k. induction c as [|item c IH]; intros k; [done|].
  simpl. rewrite (filter_cons _ item).
  destruct (id_is id' item) eqn:Hid'.
  - rewrite filter_cons.
    change (<["id" := VString id']> (<["updatedAt" := VString (clock k)]>
              (spread (spread ∅ item) input)))
      with (rebuilt Part id' (clock k) input item).
    rewrite id_is_rebuilt, (id_is_agree id' id item) by done.
    case_bool_decide as Heq; simpl.
    + subst id'. rewrite IH. clear IH.
      generalize (S k). generalize k. clear.
      induction c as [|item c IH]; intros k k'; [done|].
      rewrite filter_cons. destruct (id_is id item) eqn:Hid; simpl.
      * apply IH.
      * rewrite Hid. f_equal. apply IH.
    + by rewrite Hid', IH.
  - rewrite filter_cons. destruct (id_is id item) eqn:Hid; simpl.
    + apply IH.
    + by rewrite Hid', IH.
Qed.

Lemma map_rebuilt_delete (e : Entity) id id' now input (c : Collection) :
  filter (λ item, negb (id_is id item))
    (map (λ item, if id_is id' item then rebuilt e id' now input item else item) c)
  = map (λ item, if id_is id' item then rebuilt e id' now input item else item)
      (filter (λ item, negb (id_is id item)) c).
Proof.
  induction c as [|item c IH]; [done|].
  cbn [map]. rewrite !filter_cons.
  destruct (id_is id' item) eqn:Hid'.
  - rewrite id_is_rebuilt, (id_is_agree id' id item) by done.
    case_bool_decide; simpl; by rewrite ?Hid', IH.
  - destruct (id_is id item) eqn:Hid; simpl; by rewrite ?Hid', IH.
Qed.

Lemma update_delete (e : Entity) id id' clock input (c : Collection) :
  updater (OpDelete e id) (updater (OpUpdate e id' clock input) c)
  = updater (OpUpdate e id' clock input) (updater (OpDelete e id) c).
Proof. destruct e; [apply updatePart_map_delete|..]; apply map_rebuilt_delete. Qed.

Lemma rebuilt_merge (e : Entity) (id now now' : string) (a b item : JsObject) :
  rebuilt e id now' b (rebuilt e id now a item) = rebuilt e id now' (spread a b) item.
Proof.
  apply map_eq. intros k.
  destruct (decide (k = "id")) as [->|Hid].
  { destruct e; unfold rebuilt; by rewrite !lookup_insert_eq. }
  assert (∀ now'',
    (e = Part → k ≠ "updatedAt") →
    rebuilt e id now' b (rebuilt e id now'' a item) !! k
    = rebuilt e id now' (spread a b) item !! k) as Hother.
  { intros now'' Hup. rewrite !rebuilt_lookup, spread_lookup by done.
    by destruct (b !! k). }
  destruct e; try (apply Hother; done).
  destruct (decide (k = "updatedAt")) as [->|Hup]; [|by apply Hother].
  by rewrite !rebuilt_updatedAt.
Qed.

Lemma updatePart_map_merge id clock clock' a b k k' (c : Collection) :
  updatePart_map id clock' b k' (updatePart_map id clock a k c)
  = updatePart_map id clock' (spread a b) k' c.
Proof.
  revert k k'. induction c as [|item c IH]; intros k k'; [done|].
  simpl. destruct (id_is id item) eqn:Hid; simpl.
  - change (<["id" := VString id]> (<["updatedAt" := VString (clock k)]>
              (spread (spread ∅ item) a)))
      with (rebuilt Part id (clock k) a item).
    rewrite id_is_rebuilt, bool_decide_true by done.
    change (<["id" := VString id]> (<["updatedAt" := VString (clock' k')]>
              (spread (spread ∅ (rebuilt Part id (clock k) a item)) b)))
      with (rebuilt Part id (clock' k') b (rebuilt Part id (clock k) a item)).
    by rewrite rebuilt_merge, IH.
  - by rewrite Hid, IH.
Qed.

Lemma update_merge (e : Entity) id clock clock' a b (c : Collection) :
  updater (OpUpdate e id clock' b) (updater (OpUpdate e id clock a) c)
  = updater (OpUpdate e id clock' (spread a b)) c.
Proof.
  destruct e; [apply updatePart_map_merge|..]; unfold updater;
    rewrite map_map; apply map_ext; intros item;
    (destruct (id_is id item) eqn:Hid;
     [rewrite id_is_rebuilt, bool_decide_true by done; apply rebuilt_merge
     |by rewrite Hid]).
Qed.

(** X1: a second [delete] of the same identity leaves the state that the first
    one made, and its promise is fulfilled. *)
Theorem delete_is_idempotent (e : Entity) (id : string) (s : DataState) :
  and_then (deleteRecord e id s) (deleteRecord e id) = deleteRecord e id s.
Proof.
  change (and_then (dispatch (OpDelete e id) s) (dispatch (OpDelete e id))
          = dispatch (OpDelete e id) s).
  rewrite and_then_same_entity by done.
  rewrite dispatch_updater. simpl. by rewrite delete_idem.
Qed.

(** X2: [create] followed by [delete] of the identity that [create] generated
    gives back the state before the two calls, when the input has the
    declared type and no record carried that identity. *)
Theorem create_then_delete_restores
    (e : Entity) (env : Entropy) (now : string) (input : JsObject) (s : DataState) :
  lacks (create_omits e) input →
  VString (generateId env) ∉ ids (collection e s) →
  and_then (createRecord e env now input s) (deleteRecord e (generateId env))
  = Fulfilled s.
Proof.
  intros Hl Hfresh.
  change (and_then (dispatch (OpCreate e env now input) s)
            (dispatch (OpDelete e (generateId env))) = Fulfilled s).
  rewrite and_then_same_entity by done. simpl.
  rewrite filter_cons.
  assert (id_is (generateId env) (created e (generateId env) now input) = true)
    as -> by (apply id_is_true; by apply created_id).
  simpl. by rewrite delete_absent, with_collection_same.
Qed.

Lemma create_then_delete_restores_witness :
  and_then (createRecord Part sampleEntropy (sampleClock 0) samplePartInput sampleState)
    (deleteRecord Part (generateId sampleEntropy))
  = Fulfilled sampleState.
Proof.
  apply create_then_delete_restores.
  - unfold lacks. simpl. repeat constructor; by vm_compute.
  - vm_compute. intros H. repeat (apply elem_of_cons in H as [H|H]; [discriminate H|]).
    by apply elem_of_nil in H.
Defined.

(** X3: two calls of [update] for the same identity amount to one call with
    the two inputs spread one over the other, the later input winning; for a
    Part the time stamp is that of the later call.  An [update] repeated
    with the same input amounts to the later call alone: it changes nothing
    more, except that a Part gets the time stamp of the later call. *)
Theorem update_then_update
    (e : Entity) (id : string) (clock clock' : nat → string) (a b : JsObject)
    (s : DataState) :
  and_then (updateRecord e id clock a s) (updateRecord e id clock' b)
  = updateRecord e id clock' (spread a b) s
  ∧ and_then (updateRecord e id clock a s) (updateRecord e id clock' a)
    = updateRecord e id clock' a s
  ∧ (e ≠ Part →
     and_then (updateRecord e id clock a s) (updateRecord e id clock' a)
     = updateRecord e id clock a s).
Proof.
  assert (∀ b', and_then (updateRecord e id clock a s) (updateRecord e id clock' b')
                = updateRecord e id clock' (spread a b') s) as Hmerge.
  { intros b'.
    change (and_then (dispatch (OpUpdate e id clock a) s)
              (dispatch (OpUpdate e id clock' b'))
            = dispatch (OpUpdate e id clock' (spread a b')) s).
    rewrite and_then_same_entity by done.
    rewrite (dispatch_updater (OpUpdate e id clock' (spread a b'))).
    by rewrite update_merge. }
  assert (spread a a = a) as Hsame by (unfold spread; apply (idemp (∪) a)).
  split_and!.
  - apply Hmerge.
  - by rewrite Hmerge, Hsame.
  - intros Hne. rewrite Hmerge, Hsame. by destruct e.
Qed.

Lemma update_then_update_witness :
  and_then (updateRecord Revision "r1" sampleClock sampleRevisionInput sampleState)
    (updateRecord Revision "r1" (λ _, "2025-06-02T09:00:00.000Z") sampleRevisionInput)
  = updateRecord Revision "r1" sampleClock sampleRevisionInput sampleState.
Proof.
  by apply (update_then_update Revision "r1" sampleClock
              (λ _, "2025-06-02T09:00:00.000Z") sampleRevisionInput
              sampleRevisionInput sampleState).
Defined.

(** X4: two operations on the collections of two different entity types can be
    called in either order: the state they leave is the same. *)
Theorem operations_on_two_collections_commute (op1 op2 : Op) (s : DataState) :
  op_entity op1 ≠ op_entity op2 →
  and_then (dispatch op1 s) (dispatch op2) = and_then (dispatch op2 s) (dispatch op1).
Proof.
  intros Hne. rewrite (dispatch_updater op1), (dispatch_updater op2). simpl.
  rewrite !dispatch_updater, !collection_with_other by done.
  by rewrite with_collection_commute.
Qed.

Lemma operations_on_two_collections_commute_witness :
  and_then (dispatch (OpDelete TeamMember "tm-1") sampleState)
    (dispatch (OpUpdate Revision "r1" sampleClock sampleRevisionInput))
  = and_then (dispatch (OpUpdate Revision "r1" sampleClock sampleRevisionInput)
                sampleState)
      (dispatch (OpDelete TeamMember "tm-1")).
Proof. by apply operations_on_two_collections_commute. Defined.

(** X5: on one collection, [delete] commutes with another [delete] and with an
    [update], whatever the two identities are; in particular an [update]
    followed by the [delete] of the same identity is that [delete]. *)
Theorem delete_commutes
    (e : Entity) (id id' : string) (clock : nat → string) (input : JsObject)
    (s : DataState) :
  and_then (deleteRecord e id s) (deleteRecord e id')
  = and_then (deleteRecord e id' s) (deleteRecord e id)
  ∧ and_then (updateRecord e id' clock input s) (deleteRecord e id)
    = and_then (deleteRecord e id s) (updateRecord e id' clock input).
Proof.
  split.
  - change (and_then (dispatch (OpDelete e id) s) (dispatch (OpDelete e id'))
            = and_then (dispatch (OpDelete e id') s) (dispatch (OpDelete e id))).
    rewrite !and_then_same_entity by done. simpl. by rewrite delete_delete.
  - change (and_then (dispatch (OpUpdate e id' clock input) s) (dispatch (OpDelete e id))
            = and_then (dispatch (OpDelete e id) s)
                (dispatch (OpUpdate e id' clock input))).
    rewrite !and_then_same_entity by done.
    change (op_entity (OpUpdate e id' clock input)) with e.
    change (op_entity (OpDelete e id)) with e.
    by rewrite update_delete.
Qed.

(** ** The provider at work: memory and storage *)

Lemma dispatch_isReady (op : Op) (s s' : DataState) :
  dispatch op s = Fulfilled s' → isReady s' = isReady s.
Proof.
  rewrite dispatch_updater. intros [= <-]. apply isReady_with_collection.
Qed.

Lemma run_not_ready (op : Op) (p : Provider) :
  isReady (state p) = false →
  storage (run op p) = storage p ∧ isReady (state (run op p)) = false.
Proof.
  intros Hr. unfold run. rewrite dispatch_updater. simpl.
  unfold persist_effect. by rewrite isReady_with_collection, Hr.
Qed.

Lemma commit_discards (sp sr stm sc ss : Collection) (s : DataState) :
  apply_updates (bootstrap_updates sp sr stm sc ss) s = mkState true sp sr stm sc ss.
Proof. reflexivity. Qed.

(** X6: what the screens do before the store is ready is lost.  The
    operations called on a provider that is not ready write nothing to
    storage and leave it not ready, and the commit of startup replaces
    whatever they put in memory by what the five loads returned. *)
Theorem mutations_before_ready_are_dropped
    (p : Provider) (ops : list Op) (sp sr stm sc ss : Collection) :
  isReady (state p) = false →
  storage (runs ops p) = storage p
  ∧ isReady (state (runs ops p)) = false
  ∧ apply_updates (bootstrap_updates sp sr stm sc ss) (state (runs ops p))
    = mkState true sp sr stm sc ss.
Proof.
  intros Hr. split_and!; [| |apply commit_discards];
    revert p Hr; unfold runs;
    (induction ops as [|op ops IH]; intros p Hr; [done|]);
    destruct (run_not_ready op p Hr) as [Hst Hr']; simpl;
    rewrite IH by done; done.
Qed.

Lemma mutations_before_ready_are_dropped_witness :
  storage (runs sampleOps (mkProvider initialState emptyStorage)) = emptyStorage
  ∧ isReady (state (runs sampleOps (mkProvider initialState emptyStorage))) = false
  ∧ apply_updates (bootstrap_updates [samplePart] [] [] [] [])
      (state (runs sampleOps (mkProvider initialState emptyStorage)))
    = mkState true [samplePart] [] [] [] [].
Proof.
  apply (mutations_before_ready_are_dropped (mkProvider initialState emptyStorage)).
  reflexivity.
Defined.

Lemma runs_not_ready (ops : list Op) (p : Provider) :
  isReady (state p) = false →
  storage (runs ops p) = storage p ∧ isReady (state (runs ops p)) = false.
Proof.
  revert p. unfold runs. induction ops as [|op ops IH]; intros p Hr; [done|].
  destruct (run_not_ready op p Hr) as [Hst Hr']. simpl.
  destruct (IH (run op p) Hr') as [-> ->]. by rewrite Hst.
Qed.

(** ** C9: readiness *)

Lemma load_result_same_about key fallback st st' :
  same_about key st st' →
  (loadCollection key fallback st').1 = (loadCollection key fallback st).1.
Proof.
  intros (Hi & Hu & Hw). rewrite !load_cases, Hi, Hu, Hw.
  repeat (case_decide || case_match); done.
Qed.

Lemma load_same_about_other key key' fallback st r st1 :
  loadCollection key fallback st = (r, st1) → key' ≠ key → same_about key' st st1.
Proof.
  intros Hload Hne.
  destruct (load_writes_or_not key fallback st) as [r' [H|H]];
    rewrite H in Hload; injection Hload as _ <-; [done|].
  split; [|done]. simpl. by rewrite lookup_insert_ne.
Qed.

Lemma same_about_trans key st1 st2 st3 :
  same_about key st1 st2 → same_about key st2 st3 → same_about key st1 st3.
Proof. intros (? & ? & ?) (? & ? & ?). split_and!; congruence. Qed.

(** What [Promise.all] resolves to: the result of each of the five loads is
    the one that the load gives when it runs alone on the storage that
    [bootstrap] finds. *)
Lemma bootstrap_loads_results init st :
  ∃ sp sr stm sc ss st',
    bootstrap_loads init st = (Fulfilled (sp, sr, stm, sc, ss), st')
    ∧ ∀ e, (loadCollection (STORAGE_KEYS e) (defaults init e) st).1
           = Fulfilled (Runtime.collection e (Runtime.mkState true sp sr stm sc ss)).
Proof.
  destruct (load_never_rejects (STORAGE_KEYS Part) (defaultParts init) st)
    as (sp & st1 & H1).
  destruct (load_never_rejects (STORAGE_KEYS Revision) (defaultRevisions init) st1)
    as (sr & st2 & H2).
  destruct (load_never_rejects (STORAGE_KEYS TeamMember) (defaultTeam init) st2)
    as (stm & st3 & H3).
  destruct (load_never_rejects (STORAGE_KEYS Client) (defaultClients init) st3)
    as (sc & st4 & H4).
  destruct (load_never_rejects (STORAGE_KEYS Supplier) (defaultSuppliers init) st4)
    as (ss & st5 & H5).
  exists sp, sr, stm, sc, ss, st5. split.
  { unfold bootstrap_loads, bind. by rewrite H1, H2, H3, H4, H5. }
  assert (∀ key, key ≠ STORAGE_KEYS Part → same_about key st st1) as S1
    by (intros key ?; by eapply load_same_about_other).
  assert (∀ key, key ≠ STORAGE_KEYS Revision → same_about key st1 st2) as S2
    by (intros key ?; by eapply load_same_about_other).
  assert (∀ key, key ≠ STORAGE_KEYS TeamMember → same_about key st2 st3) as S3
    by (intros key ?; by eapply load_same_about_other).
  assert (∀ key, key ≠ STORAGE_KEYS Client → same_about key st3 st4) as S4
    by (intros key ?; by eapply load_same_about_other).
  intros []; cbn [Runtime.collection Runtime.parts Runtime.revisions Runtime.team
                  Runtime.clients Runtime.suppliers defaults].
  - by rewrite H1.
  - rewrite <- (load_result_same_about _ _ st st1) by (by apply S1). by rewrite H2.
  - rewrite <- (load_result_same_about _ _ st st2)
      by (eapply same_about_trans; [by apply S1|by apply S2]).
    by rewrite H3.
  - rewrite <- (load_result_same_about _ _ st st3)
      by (eapply same_about_trans;
          [eapply same_about_trans; [by apply S1|by apply S2]|by apply S3]).
    by rewrite H4.
  - rewrite <- (load_result_same_about _ _ st st4)
      by (eapply same_about_trans;
          [eapply same_about_trans;
           [eapply same_about_trans; [by apply S1|by apply S2]|by apply S3]
          |by apply S4]).
    by rewrite H5.
Qed.

Lemma ready_is_set_last sp sr stm sc ss (s : Runtime.State) (n : nat) :
  Runtime.isReady s = false → n < 6 →
  Runtime.isReady
    (Runtime.apply_updates (take n (Runtime.bootstrap_updates sp sr stm sc ss)) s)
  = false.
Proof.
  intros Hs Hn. do 6 (destruct n as [|n]; [exact Hs|]). lia.
Qed.

(** C9 (amended): the store never reports ready before the five loads have
    finished, each with the stored value or with its fallback.  Whatever the
    screens call while the loads run, the store stays not ready and storage
    is not written.  The loads never reject, and each returns what it
    returns when it runs alone on the storage found at startup.  [bootstrap]
    then commits the five results and sets the readiness flag, which is the
    last of the six queued updates: no proper prefix of the queue makes the
    store ready, and the committed state is ready and holds the five
    results, whatever the collections held before.  Every startup step of the
    typed provider is this commit. *)
Theorem ready_only_after_all_loads
    (init : ModuleInit) (st : AsyncStorage) (ops : list Op) :
  let p := runs ops (mkProvider initialState st) in
  (isReady (state p) = false ∧ storage p = st)
  ∧ ∃ sp sr stm sc ss st',
      let committed := Runtime.mkState true sp sr stm sc ss in
      bootstrap_loads init st = (Fulfilled (sp, sr, stm, sc, ss), st')
      ∧ (∀ e, (loadCollection (STORAGE_KEYS e) (defaults init e) st).1
              = Fulfilled (Runtime.collection e committed))
      ∧ (∀ n, n < 6 →
              Runtime.isReady
                (Runtime.apply_updates
                   (take n (Runtime.bootstrap_updates sp sr stm sc ss))
                   (run_time (state p)))
              = false)
      ∧ bootstrap init (run_time (state p)) (storage p) = (committed, st')
      ∧ (∀ p', startup_step init p p' →
               run_time (state p') = committed ∧ storage p' = st').
Proof.
  intros p.
  destruct (runs_not_ready ops (mkProvider initialState st) eq_refl) as [Hst Hr].
  fold p in Hst, Hr. cbn [storage] in Hst. split; [done|].
  destruct (bootstrap_loads_results init st)
    as (sp & sr & stm & sc & ss & st' & Hloads & Hresults).
  exists sp, sr, stm, sc, ss, st'. cbv zeta.
  assert (bootstrap init (run_time (state p)) (storage p)
          = (Runtime.mkState true sp sr stm sc ss, st')) as Hboot.
  { unfold bootstrap. by rewrite Hst, Hloads. }
  split_and!; [done|done| |done|].
  - intros n Hn. by apply ready_is_set_last.
  - intros p' Hstep. unfold startup_step in Hstep. rewrite Hboot in Hstep.
    split; [exact (eq_sym (f_equal fst Hstep))|exact (eq_sym (f_equal snd Hstep))].
Qed.

Lemma ready_only_after_all_loads_witness :
  isReady (state (runs sampleOps (mkProvider initialState emptyStorage))) = false
  ∧ storage (runs sampleOps (mkProvider initialState emptyStorage)) = emptyStorage.
Proof. apply (ready_only_after_all_loads sampleInit emptyStorage sampleOps). Defined.

(** C9 as stated fails in its last clause.  The operations of the store do
    not look at the readiness flag: a part created while the loads run is in
    the collection before the store is ready.  The startup step that follows
    makes the store ready and puts the loaded parts in its place. *)
Lemma collections_can_change_before_ready :
  isReady (state (runs sampleOps (mkProvider initialState emptyStorage))) = false
  ∧ length (parts (state (runs sampleOps (mkProvider initialState emptyStorage)))) = 1
  ∧ ∃ p',
      startup_step sampleInit (runs sampleOps (mkProvider initialState emptyStorage)) p'
      ∧ isReady (state p') = true
      ∧ parts (state p') = defaultParts sampleInit.
Proof.
  split; [reflexivity|]. split; [reflexivity|].
  destruct (bootstrap_from_nothing sampleInit emptyStorage) as (st' & Hloads & _).
  { intros e. repeat split; set_solver. }
  eexists. split.
  - change (runs sampleOps (mkProvider initialState emptyStorage))
      with (mkProvider (state (runs sampleOps (mkProvider initialState emptyStorage)))
              emptyStorage).
    apply startup_commit. exact Hloads.
  - split; reflexivity.
Qed.

(** A stored value that is no list of records is committed as it is, and the
    store is ready all the same. *)
Example bootstrap_commits_what_is_no_list :
  bootstrap sampleInit (run_time initialState)
    (mkStorage {[ STORAGE_KEYS Part := "{}" ]} ∅ ∅)
  = (Runtime.mkState true (Verbatim (JObj [])) (Records (defaultRevisions sampleInit))
       (Records (defaultTeam sampleInit)) (Records (defaultClients sampleInit))
       (Records (defaultSuppliers sampleInit)),
     written (STORAGE_KEYS Supplier) (JSON_stringify (defaultSuppliers sampleInit))
       (written (STORAGE_KEYS Client) (JSON_stringify (defaultClients sampleInit))
          (written (STORAGE_KEYS TeamMember) (JSON_stringify (defaultTeam sampleInit))
             (written (STORAGE_KEYS Revision)
                (JSON_stringify (defaultRevisions sampleInit))
                (mkStorage {[ STORAGE_KEYS Part := "{}" ]} ∅ ∅))))).
Proof. by vm_compute. Qed.

Lemma dependable_written (key value : string) (st : AsyncStorage) :
  dependable st → dependable (written key value st).
Proof. intros Hd e. apply Hd. Qed.

Lemma mirrored_written (e : Entity) (s' : DataState) (st : AsyncStorage) :
  (∀ e', e' ≠ e →
         items st !! STORAGE_KEYS e' = Some (JSON_stringify (collection e' s'))) →
  mirrored (mkProvider s'
              (written (STORAGE_KEYS e) (JSON_stringify (collection e s')) st)).
Proof.
  intros Hm e'. simpl. destruct (decide (e' = e)) as [->|Hne].
  - apply lookup_insert_eq.
  - rewrite lookup_insert_ne; [by apply Hm|].
    intros Heq. by apply STORAGE_KEYS_inj in Heq.
Qed.

Lemma run_mirrored (op : Op) (p : Provider) :
  isReady (state p) = true → dependable (storage p) → mirrored p →
  isReady (state (run op p)) = true ∧ dependable (storage (run op p))
  ∧ mirrored (run op p).
Proof.
  intros Hr Hd Hm. unfold run. rewrite dispatch_updater.
  set (e := op_entity op). set (s' := with_collection e _ _). simpl.
  assert (isReady s' = true) as Hr'
    by (unfold s'; by rewrite isReady_with_collection).
  unfold persist_effect. rewrite Hr', persist_writable by apply Hd. simpl.
  split_and!; [done|by apply dependable_written|].
  apply mirrored_written. intros e' Hne.
  unfold s'. rewrite collection_with_other by done. apply Hm.
Qed.

Lemma after_effects_mirrored (p : Provider) :
  isReady (state p) = true → dependable (storage p) →
  dependable (storage (after_effects p)) ∧ mirrored (after_effects p).
Proof.
  intros Hr Hd. unfold after_effects, persist_effects, persist_effect, bind.
  rewrite Hr.
  pose proof (Hd Part) as [_ ?]. pose proof (Hd Revision) as [_ ?].
  pose proof (Hd TeamMember) as [_ ?]. pose proof (Hd Client) as [_ ?].
  pose proof (Hd Supplier) as [_ ?].
  rewrite !persist_writable by done. simpl.
  split; [by repeat apply dependable_written|].
  intros []; simpl; rewrite ?(lookup_insert_ne _ _ _ _) by done;
    apply lookup_insert_eq.
Qed.

(** X7: once the store is ready, storage follows memory.  Over a storage that
    rejects none of the five keys, after the effects of the startup commit
    and after every operation that follows (the write of each effect
    settling before the next operation), each of the five keys holds the
    JSON text of the collection that is in memory. *)
Theorem storage_mirrors_memory (p : Provider) (ops : list Op) :
  isReady (state p) = true → dependable (storage p) →
  mirrored (runs ops (after_effects p)).
Proof.
  intros Hr Hd.
  destruct (after_effects_mirrored p Hr Hd) as [Hd' Hm].
  assert (isReady (state (after_effects p)) = true) as Hr' by done.
  revert Hr' Hd' Hm. generalize (after_effects p). clear.
  unfold runs. induction ops as [|op ops IH]; intros p Hr Hd Hm; [done|].
  simpl. destruct (run_mirrored op p Hr Hd Hm) as (? & ? & ?). by apply IH.
Qed.

Lemma storage_mirrors_memory_witness :
  mirrored (runs sampleOps (after_effects (mkProvider sampleState emptyStorage))).
Proof.
  apply storage_mirrors_memory; [reflexivity|].
  intros e. split; simpl; apply not_elem_of_empty.
Defined.

Lemma load_mirrored (e : Entity) (fallback : Collection) (p : Provider) :
  STORAGE_KEYS e ∉ unreadable (storage p) → mirrored p →
  loadCollection (STORAGE_KEYS e) fallback (storage p)
  = (Fulfilled (Records (jsonified <$> collection e (state p))), storage p).
Proof.
  intros Hread Hm.
  destruct (JSON_round_trip (collection e (state p))) as [Hparse Hcast].
  rewrite <- Hcast.
  eapply load_parsed; [done|apply Hm|apply JSON_stringify_not_empty|apply Hparse|done].
Qed.

(** X8: a restart brings back what storage mirrors.  When storage holds the
    text of every collection in memory and the five keys can be read, the
    next start of the application (whatever its seed records are) commits
    these collections as JSON keeps them and leaves storage as it is; a
    collection whose numbers are all finite comes back field for field. *)
Theorem restart_brings_back_the_collections (init : ModuleInit) (p : Provider) :
  mirrored p →
  (∀ e, STORAGE_KEYS e ∉ unreadable (storage p)) →
  startup_step init (mkProvider initialState (storage p))
    (mkProvider (reloaded (state p)) (storage p))
  ∧ ∀ e, collection e (reloaded (state p)) = jsonified <$> collection e (state p)
         ∧ (all_finite (collection e (state p)) →
            Forall2 same_fields (collection e (state p))
              (collection e (reloaded (state p)))).
Proof.
  intros Hm Hread. split.
  - change (reloaded (state p))
      with (apply_updates
              (bootstrap_updates (jsonified <$> parts (state p))
                 (jsonified <$> revisions (state p)) (jsonified <$> team (state p))
                 (jsonified <$> clients (state p)) (jsonified <$> suppliers (state p)))
              initialState).
    apply startup_commit. unfold bootstrap_loads, bind.
    by rewrite !(load_mirrored _ _ p).
  - intros e. assert (collection e (reloaded (state p))
                      = jsonified <$> collection e (state p)) as Heq by (by destruct e).
    split; [done|]. rewrite Heq. apply jsonified_all_finite.
Qed.

Lemma restart_brings_back_the_collections_witness :
  startup_step sampleInit
    (mkProvider initialState
       (storage (after_effects (mkProvider sampleState emptyStorage))))
    (mkProvider (reloaded sampleState)
       (storage (after_effects (mkProvider sampleState emptyStorage)))).
Proof.
  apply (restart_brings_back_the_collections sampleInit
           (after_effects (mkProvider sampleState emptyStorage))).
  - by intros []; vm_compute.
  - intros e. simpl. apply not_elem_of_empty.
Defined.

(** ** Loads and writes, key by key *)

Lemma JSON_parse_empty : JSON_parse EmptyString = None.
Proof. reflexivity. Qed.

(** X9: a stored text that is JSON, and not [null], is what the load returns,
    unchecked: the fallback plays no part, nothing is written, and a value
    that is no list of records reaches the caller as it is. *)
Theorem stored_value_is_returned_unchecked
    (key raw : string) (fallback : Collection) (st : AsyncStorage) (j : Json) :
  key ∉ unreadable st → items st !! key = Some raw →
  JSON_parse raw = Some j → j ≠ JNull →
  loadCollection key fallback st = (Fulfilled (cast j), st)
  ∧ (collection_of_json j = None → cast j = Verbatim j).
Proof.
  intros Hread Hraw Hparse Hnull. split.
  - eapply load_parsed; try done.
    intros ->. by rewrite JSON_parse_empty in Hparse.
  - unfold cast. by intros ->.
Qed.

Lemma stored_value_is_returned_unchecked_witness :
  loadCollection (STORAGE_KEYS Part) (defaultParts sampleInit)
    (mkStorage {[ STORAGE_KEYS Part := "{}" ]} ∅ ∅)
  = (Fulfilled (Verbatim (JObj [])),
     mkStorage {[ STORAGE_KEYS Part := "{}" ]} ∅ ∅).
Proof.
  destruct (stored_value_is_returned_unchecked (STORAGE_KEYS Part) "{}"
              (defaultParts sampleInit)
              (mkStorage {[ STORAGE_KEYS Part := "{}" ]} ∅ ∅) (JObj []))
    as [Hload Hcast];
    [apply not_elem_of_empty|reflexivity|reflexivity|discriminate|].
  rewrite Hload. by rewrite Hcast.
Defined.

(** X10: a load leaves storage in a state that a second load of the same key
    does not change, and the second load returns what the first returned,
    or, when the first one has just written the fallback, the fallback as
    JSON keeps it. *)
Theorem second_load_changes_nothing
    (key : string) (fallback : Collection) (st st1 : AsyncStorage)
    (r : Promise Loaded) :
  loadCollection key fallback st = (r, st1) →
  ∃ r', loadCollection key fallback st1 = (r', st1)
        ∧ (r' = r
           ∨ (r = Fulfilled (Records fallback)
              ∧ r' = Fulfilled (Records (jsonified <$> fallback)))).
Proof.
  rewrite (load_cases key fallback st).
  destruct (decide (key ∈ unreadable st)) as [Hun|Hread].
  { intros [= <- <-]. exists (Fulfilled (Records fallback)).
    split; [by apply load_unreadable|by left]. }
  destruct (falsy (items st !! key)) eqn:Hfalsy.
  - destruct (decide (key ∈ unwritable st)) as [Hw|Hw]; intros [= <- <-].
    + exists (Fulfilled (Records fallback)).
      split; [by apply load_falsy_unwritable|by left].
    + exists (Fulfilled (Records (jsonified <$> fallback))).
      split; [|by right].
      destruct (JSON_round_trip fallback) as [Hparse Hcast]. rewrite <- Hcast.
      eapply load_parsed;
        [done|apply lookup_insert_eq|apply JSON_stringify_not_empty|done|done].
  - intros Hload. exists r. split; [|by left].
    assert (st1 = st) as ->
      by (by destruct (items st !! key ≫= JSON_parse) as [[]|]; inversion Hload).
    rewrite <- Hload, (load_cases key fallback st), decide_False, Hfalsy by done.
    done.
Qed.

Lemma second_load_changes_nothing_witness :
  ∃ r', loadCollection (STORAGE_KEYS TeamMember) (defaultTeam sampleInit)
          (written (STORAGE_KEYS TeamMember)
             (JSON_stringify (defaultTeam sampleInit)) emptyStorage)
        = (r', written (STORAGE_KEYS TeamMember)
                 (JSON_stringify (defaultTeam sampleInit)) emptyStorage)
        ∧ (r' = Fulfilled (Records (defaultTeam sampleInit))
           ∨ (Fulfilled (Records (defaultTeam sampleInit))
              = Fulfilled (Records (defaultTeam sampleInit))
              ∧ r' = Fulfilled (Records (jsonified <$> defaultTeam sampleInit)))).
Proof.
  apply (second_load_changes_nothing (STORAGE_KEYS TeamMember)
           (defaultTeam sampleInit) emptyStorage).
  by apply load_falsy_writable.
Defined.

(** X11: the loads of two entity types can run in either order: both orders
    return the same two results and leave the same storage. *)
Theorem loads_of_two_collections_commute
    (e1 e2 : Entity) (fallback1 fallback2 : Collection) (st : AsyncStorage) :
  e1 ≠ e2 →
  (let '(r1, st1) := loadCollection (STORAGE_KEYS e1) fallback1 st in
   let '(r2, st2) := loadCollection (STORAGE_KEYS e2) fallback2 st1 in (r1, r2, st2))
  = (let '(r2, st2) := loadCollection (STORAGE_KEYS e2) fallback2 st in
     let '(r1, st1) := loadCollection (STORAGE_KEYS e1) fallback1 st2 in (r1, r2, st1)).
Proof.
  intros Hne. apply loads_commute. intros Heq. by apply STORAGE_KEYS_inj in Heq.
Qed.

Lemma loads_of_two_collections_commute_witness :
  (let '(r1, st1) :=
     loadCollection (STORAGE_KEYS Part) (defaultParts sampleInit) corruptStorage in
   let '(r2, st2) :=
     loadCollection (STORAGE_KEYS TeamMember) (defaultTeam sampleInit) st1 in
   (r1, r2, st2))
  = (let '(r2, st2) :=
       loadCollection (STORAGE_KEYS TeamMember) (defaultTeam sampleInit)
         corruptStorage in
     let '(r1, st1) :=
       loadCollection (STORAGE_KEYS Part) (defaultParts sampleInit) st2 in
     (r1, r2, st1)).
Proof. by apply loads_of_two_collections_commute. Defined.

(** X12: neither a load nor a write of a collection rejects, and neither
    changes what storage holds under another key or which keys fail. *)
Theorem storage_calls_are_confined
    (key key' : string) (c : Collection) (st : AsyncStorage) :
  key' ≠ key →
  (∃ loaded st', loadCollection key c st = (Fulfilled loaded, st')
                 ∧ items st' !! key' = items st !! key'
                 ∧ unreadable st' = unreadable st ∧ unwritable st' = unwritable st)
  ∧ (∃ st', persistCollection key c st = (Fulfilled (), st')
            ∧ items st' !! key' = items st !! key'
            ∧ unreadable st' = unreadable st ∧ unwritable st' = unwritable st).
Proof.
  intros Hne. split.
  - destruct (load_never_rejects key c st) as (loaded & st' & Hload).
    exists loaded, st'. split; [done|].
    destruct (load_writes_or_not key c st) as [r [H|H]];
      rewrite H in Hload; injection Hload as _ <-; [done|].
    simpl. by rewrite lookup_insert_ne.
  - destruct (decide (key ∈ unwritable st)) as [Hw|Hw].
    + exists st. by rewrite persist_unwritable.
    + exists (written key (JSON_stringify c) st).
      rewrite persist_writable by done. simpl. by rewrite lookup_insert_ne.
Qed.

Lemma storage_calls_are_confined_witness :
  ∃ st', persistCollection (STORAGE_KEYS Part) [samplePart] corruptStorage
         = (Fulfilled (), st')
         ∧ items st' !! STORAGE_KEYS TeamMember
           = items corruptStorage !! STORAGE_KEYS TeamMember
         ∧ unreadable st' = unreadable corruptStorage
         ∧ unwritable st' = unwritable corruptStorage.
Proof.
  by apply (storage_calls_are_confined (STORAGE_KEYS Part) (STORAGE_KEYS TeamMember)).
Defined.

(** ** Identities *)

Lemma pretty_N_go_dashless (x : N) (s : string) :
  dashless s → dashless (pretty_N_go x s).
Proof.
  revert s. induction (N.lt_wf_0 x) as [x _ IH]; intros s Hs.
  assert (x = 0 ∨ 0 < x)%N as [->|Hpos] by lia.
  - by rewrite pretty_N_go_0.
  - rewrite pretty_N_go_step by done. apply IH.
    { by apply N.div_lt. }
    split; [|done]. unfold pretty_N_char. by repeat case_match.
Qed.

Lemma pretty_N_dashless (x : N) : dashless (pretty x).
Proof.
  unfold pretty, pretty_N. case_decide; [by repeat split|].
  by apply pretty_N_go_dashless.
Qed.

Lemma dash_splits (d1 d2 h1 h2 : string) :
  dashless d1 → dashless d2 →
  d1 +:+ "-" +:+ h1 = d2 +:+ "-" +:+ h2 → d1 = d2 ∧ h1 = h2.
Proof.
  revert d2. induction d1 as [|c d1 IH]; intros [|c' d2]; simpl.
  - intros _ _ Heq. by simplify_eq.
  - intros _ [Hc _] Heq. by simplify_eq.
  - intros [Hc _] _ Heq. by simplify_eq.
  - intros [_ H1] [_ H2] Heq. simplify_eq.
    by destruct (IH d2 H1 H2) as [-> ->].
Qed.

(** X13: on a platform without [crypto.randomUUID], two identities are equal
    only when they were generated at the same millisecond with the same
    random digits. *)
Theorem generated_identities_differ (env1 env2 : Entropy) :
  has_randomUUID env1 = false → has_randomUUID env2 = false →
  generateId env1 = generateId env2 →
  Date_now env1 = Date_now env2 ∧ random_hex env1 = random_hex env2.
Proof.
  unfold generateId. intros -> -> Heq.
  apply dash_splits in Heq as [Hnow Hhex]; [|apply pretty_N_dashless..].
  split; [|done]. by apply (inj pretty).
Qed.

Lemma generated_identities_differ_witness :
  Date_now sampleEntropy = Date_now (mkEntropy false "unused" 1748779200000 "3f9a2c")
  ∧ random_hex sampleEntropy
    = random_hex (mkEntropy false "unused" 1748779200000 "3f9a2c").
Proof.
  by apply (generated_identities_differ sampleEntropy
              (mkEntropy false "unused" 1748779200000 "3f9a2c")).
Defined.

(** ** The revisions screen *)

Lemma id_of_record (item : JsObject) (id : string) :
  get item "id" = VString id → item !! "id" = Some (VString id).
Proof. unfold get. destruct (item !! "id") as [v|]; simpl; [by intros ->|done]. Qed.

Lemma concluded (item : JsObject) (id : string) :
  get item "id" = VString id →
  <["id" := VString id]>
    (spread (spread ∅ item)
       (spread (delete "id" item) (<["status" := VString "concluida"]> ∅)))
  = <["status" := VString "concluida"]> item.
Proof.
  intros Hid%id_of_record. apply map_eq. intros k.
  destruct (decide (k = "id")) as [->|Hk].
  { by rewrite lookup_insert_eq, lookup_insert_ne. }
  rewrite lookup_insert_ne by done. rewrite spread_empty, !spread_lookup.
  destruct (decide (k = "status")) as [->|Hs].
  - by rewrite !lookup_insert_eq.
  - rewrite !lookup_insert_ne, lookup_empty, lookup_delete_ne by done.
    by destruct (item !! k).
Qed.

(** X14: the button [Concluir] of a revision sets the status of that revision
    to [concluida] and changes no other field of it; the revisions with
    another identity, the number of revisions and the other collections stay
    as they are. *)
Theorem concluir_changes_the_status_only
    (item : JsObject) (id : string) (s : DataState) (i : nat) :
  revisions s !! i = Some item → get item "id" = VString id →
  ∃ s', onConcluir item s = Some (Fulfilled s')
        ∧ revisions s' !! i = Some (<["status" := VString "concluida"]> item)
        ∧ length (revisions s') = length (revisions s)
        ∧ (∀ j other, revisions s !! j = Some other → get other "id" ≠ VString id →
                      revisions s' !! j = Some other)
        ∧ same_elsewhere Revision s s'.
Proof.
  intros Hi Hid. unfold onConcluir, updateRevision. rewrite Hid.
  eexists. split; [done|]. simpl.
  split_and!.
  - change (map ?f ?l) with (f <$> l). rewrite list_lookup_fmap, Hi. simpl.
    assert (id_is id item = true) as -> by by apply id_is_true.
    f_equal. rewrite <- (concluded item id Hid). done.
  - apply length_map.
  - intros j other Hj Hne.
    change (map ?f ?l) with (f <$> l). rewrite list_lookup_fmap, Hj. simpl.
    by assert (id_is id other = false) as -> by by apply id_is_false.
  - split; [done|]. by intros [] ?.
Qed.

Lemma concluir_changes_the_status_only_witness :
  ∃ s', onConcluir sampleRevision sampleState = Some (Fulfilled s')
        ∧ revisions s' !! 0 = Some (<["status" := VString "concluida"]> sampleRevision)
        ∧ length (revisions s') = length (revisions sampleState)
        ∧ (∀ j other, revisions sampleState !! j = Some other →
                      get other "id" ≠ VString "r1" →
                      revisions s' !! j = Some other)
        ∧ same_elsewhere Revision sampleState s'.
Proof. by apply (concluir_changes_the_status_only sampleRevision "r1"). Defined.

Lemma replaced_by_input (id : string) (input item : JsObject) :
  keys item ⊆ keys input ∪ {["id"]} →
  <["id" := VString id]> (spread (spread ∅ item) input)
  = <["id" := VString id]> input.
Proof.
  intros Hdom. apply map_eq. intros k.
  destruct (decide (k = "id")) as [->|Hk]; [by rewrite !lookup_insert_eq|].
  rewrite !lookup_insert_ne, spread_empty, spread_lookup by done.
  destruct (input !! k) as [v|] eqn:Hin; [done|].
  apply not_elem_of_dom. intros Hitem. apply Hdom in Hitem.
  apply elem_of_union in Hitem as [Hitem|Hitem].
  - by apply not_elem_of_dom in Hin.
  - by apply elem_of_singleton in Hitem.
Qed.

Section RevisionFormFacts.

Variable trim : string → string.
Variable toUpperCase : string → string.

(** X21: saving the edit form of a revision replaces the revision by the
    values of the form: of the record as it was, a record of type
    [Revision] keeps its identity and nothing else.  Notes that are blank
    once trimmed, and an assignee left empty, read as [undefined]
    afterwards. *)
Theorem edit_form_replaces_the_revision
    (formValues : RevisionFormValues) (revision : JsObject) (id : string)
    (env : Entropy) (s : DataState) (i : nat) :
  revisions s !! i = Some revision → get revision "id" = VString id →
  keys revision ⊆ keys (payload trim toUpperCase formValues) ∪ {["id"]} →
  ∃ s' revision',
    onSubmit trim toUpperCase formValues (Some revision) env s = Some (Fulfilled s')
    ∧ revisions s' !! i = Some revision'
    ∧ revision' = <["id" := VString id]> (payload trim toUpperCase formValues)
    ∧ get revision' "notes" = or_undefined (trim (notes formValues))
    ∧ get revision' "assignedTo" = or_undefined (assignedTo formValues).
Proof.
  intros Hi Hid Hdom. unfold onSubmit, updateRevision. rewrite Hid.
  eexists. eexists. split; [done|]. simpl.
  change (map ?f ?l) with (f <$> l). rewrite list_lookup_fmap, Hi. simpl.
  assert (id_is id revision = true) as -> by by apply id_is_true.
  split; [done|]. split; [by apply replaced_by_input|].
  rewrite (replaced_by_input id _ revision Hdom). by split.
Qed.

End RevisionFormFacts.

Lemma edit_form_replaces_the_revision_witness :
  ∃ s' revision',
    onSubmit (λ text, text) (λ text, text) sampleFormValues (Some sampleRevision)
      sampleEntropy sampleState
    = Some (Fulfilled s')
    ∧ revisions s' !! 0 = Some revision'
    ∧ revision' = <["id" := VString "r1"]> (payload (λ text, text) (λ text, text)
                                              sampleFormValues)
    ∧ get revision' "notes" = or_undefined (notes sampleFormValues)
    ∧ get revision' "assignedTo" = or_undefined (assignedTo sampleFormValues).
Proof.
  apply (edit_form_replaces_the_revision (λ text, text) (λ text, text)
           sampleFormValues sampleRevision "r1" sampleEntropy sampleState 0);
    [reflexivity|reflexivity|].
  apply (bool_decide_unpack _). by vm_compute.
Defined.

Lemma length_filter_cons {A} (P : A → Prop) `{∀ x, Decision (P x)} (x : A) (l : list A) :
  length (filter P (x :: l)) = (if decide (P x) then 1 else 0) + length (filter P l).
Proof. rewrite filter_cons. by destruct (decide (P x)). Qed.

Lemma increment_counts (v : JsValue) (acc : StatusCounts) :
  total (increment v acc)
  = total acc + (if decide (v = VString "total") then 1 else 0)
  ∧ agendada (increment v acc)
    = agendada acc + (if decide (v = VString "agendada") then 1 else 0)
  ∧ em_andamento (increment v acc)
    = em_andamento acc + (if decide (v = VString "em andamento") then 1 else 0)
  ∧ concluida (increment v acc)
    = concluida acc + (if decide (v = VString "concluida") then 1 else 0).
Proof.
  destruct v as [| | | |k]; simpl; try (split_and!; lia).
  destruct (String.eqb_spec k "total") as [->|?].
  { simpl. split_and!; lia. }
  destruct (String.eqb_spec k "agendada") as [->|?].
  { simpl. rewrite ?decide_False by congruence. split_and!; lia. }
  destruct (String.eqb_spec k "em andamento") as [->|?].
  { simpl. rewrite ?decide_False by congruence. split_and!; lia. }
  destruct (String.eqb_spec k "concluida") as [->|?].
  { simpl. rewrite ?decide_False by congruence. split_and!; lia. }
  rewrite !decide_False by congruence. split_and!; lia.
Qed.

Lemma counts_from (acc : StatusCounts) (revisions : Collection) :
  let c := foldl (λ acc revision,
                    increment (get revision "status") (increment (VString "total") acc))
             acc revisions in
  total c = total acc + length revisions + with_status "total" revisions
  ∧ agendada c = agendada acc + with_status "agendada" revisions
  ∧ em_andamento c = em_andamento acc + with_status "em andamento" revisions
  ∧ concluida c = concluida acc + with_status "concluida" revisions.
Proof.
  revert acc. induction revisions as [|r revisions IH]; intros acc.
  { unfold with_status. simpl. split_and!; lia. }
  cbv zeta. cbn [foldl].
  pose proof (IH (increment (get r "status") (increment (VString "total") acc))) as H.
  cbv zeta in H. destruct H as (Ht & Ha & He & Hc).
  destruct (increment_counts (get r "status") (increment (VString "total") acc))
    as (Ht1 & Ha1 & He1 & Hc1).
  destruct (increment_counts (VString "total") acc) as (Ht2 & Ha2 & He2 & Hc2).
  rewrite decide_True in Ht2 by done.
  rewrite decide_False in Ha2 by done. rewrite decide_False in He2 by done.
  rewrite decide_False in Hc2 by done.
  unfold with_status in *. rewrite !length_filter_cons.
  rewrite Ht, Ha, He, Hc, Ht1, Ha1, He1, Hc1, Ht2, Ha2, He2, Hc2.
  cbn [length]. repeat case_decide; split_and!; lia.
Qed.

(** X15: the number on the chip of a status is the number of rows that the
    list shows when that status is the filter.  The chip [Todas] shows the
    number of revisions, plus one for every revision whose status is the
    text [total], which the reducer counts twice. *)
Theorem chips_count_the_rows (revisions : Collection) :
  (∀ key, key ∈ ["agendada"; "em andamento"; "concluida"] →
          labelCount key (counts revisions)
          = Some (length (filteredRevisions key revisions)))
  ∧ labelCount "todas" (counts revisions)
    = Some (length (filteredRevisions "todas" revisions)
            + with_status "total" revisions).
Proof.
  destruct (counts_from (mkCounts 0 0 0 0) revisions) as (Ht & Ha & He & Hc).
  fold (counts revisions) in Ht, Ha, He, Hc. simpl in Ht, Ha, He, Hc. split.
  - intros key Hkey. repeat (apply elem_of_cons in Hkey as [->|Hkey]);
      [..|by apply elem_of_nil in Hkey]; unfold labelCount, filteredRevisions; simpl;
      f_equal; done.
  - unfold labelCount, filteredRevisions. simpl. f_equal. done.
Qed.

(** ** The dashboard *)

Lemma tally_data (v : JsValue) (base : StatusData) :
  data_agendada (tally v base)
  = data_agendada base + (if decide (v = VString "agendada") then 1 else 0)
  ∧ data_em_andamento (tally v base)
    = data_em_andamento base + (if decide (v = VString "em andamento") then 1 else 0)
  ∧ data_concluida (tally v base)
    = data_concluida base + (if decide (v = VString "concluida") then 1 else 0).
Proof.
  destruct v as [| | | |k]; simpl; try (split_and!; lia).
  destruct (String.eqb_spec k "agendada") as [->|?].
  { simpl. split_and!; lia. }
  destruct (String.eqb_spec k "em andamento") as [->|?].
  { simpl. rewrite ?decide_False by congruence. split_and!; lia. }
  destruct (String.eqb_spec k "concluida") as [->|?].
  { simpl. rewrite ?decide_False by congruence. split_and!; lia. }
  rewrite !decide_False by congruence. split_and!; lia.
Qed.

Lemma data_from (base : StatusData) (revisions : Collection) :
  let data := foldl (λ base revision, tally (get revision "status") base)
                base revisions in
  data_agendada data = data_agendada base + with_status "agendada" revisions
  ∧ data_em_andamento data
    = data_em_andamento base + with_status "em andamento" revisions
  ∧ data_concluida data = data_concluida base + with_status "concluida" revisions.
Proof.
  revert base. induction revisions as [|r revisions IH]; intros base.
  { unfold with_status. simpl. split_and!; lia. }
  cbv zeta. cbn [foldl].
  pose proof (IH (tally (get r "status") base)) as H.
  cbv zeta in H. destruct H as (Ha & He & Hc).
  destruct (tally_data (get r "status") base) as (Ha1 & He1 & Hc1).
  unfold with_status in *. rewrite !length_filter_cons.
  rewrite Ha, He, Hc, Ha1, He1, Hc1.
  repeat case_decide; split_and!; lia.
Qed.

Lemma undeclared_split (revisions : Collection) :
  with_status "agendada" revisions + with_status "em andamento" revisions
  + with_status "concluida" revisions
  + length (filter undeclared_status revisions)
  = length revisions.
Proof.
  unfold with_status. induction revisions as [|r revisions IH]; [done|].
  rewrite !length_filter_cons. simpl. rewrite <- IH.
  unfold undeclared_status.
  repeat case_decide; try lia; exfalso; intuition congruence.
Qed.

(** X16: the three bars of the chart of the dashboard are the three numbers
    on the status chips of the revisions screen, and together with the
    revisions whose status is none of the three they add up to the number of
    revisions. *)
Theorem chart_agrees_with_the_chips (revisions : Collection) :
  revisionChartData revisions
  = [agendada (counts revisions); em_andamento (counts revisions);
     concluida (counts revisions)]
  ∧ sum_list (revisionChartData revisions)
    + length (filter undeclared_status revisions)
    = length revisions.
Proof.
  destruct (counts_from (mkCounts 0 0 0 0) revisions) as (_ & Ha & He & Hc).
  destruct (data_from (mkStatusData 0 0 0) revisions) as (Ha' & He' & Hc').
  fold (counts revisions) in Ha, He, Hc.
  fold (revisionStatusData revisions) in Ha', He', Hc'.
  unfold revisionChartData. simpl in *.
  rewrite Ha, He, Hc, Ha', He', Hc'. split; [done|].
  pose proof (undeclared_split revisions). simpl. lia.
Qed.

(** ** The date field *)

Lemma split_not_nil (sep : ascii) (value : string) : split sep value ≠ [].
Proof.
  destruct value as [|c rest]; [done|]. simpl.
  destruct (Ascii.eqb c sep); [done|]. by destruct (split sep rest).
Qed.

Lemma split_colonless (h : string) : colonless h → split ":" h = [h].
Proof.
  induction h as [|c h IH]; [done|]. intros [Hc Hh]. simpl.
  rewrite (proj2 (Ascii.eqb_neq c ":")) by done. by rewrite IH.
Qed.

Lemma split_at_colon (h rest : string) :
  colonless h → split ":" (h +:+ ":" +:+ rest) = h :: split ":" rest.
Proof.
  induction h as [|c h IH]; [done|]. intros [Hc Hh]. simpl.
  rewrite (proj2 (Ascii.eqb_neq c ":")) by done. by rewrite IH.
Qed.

Lemma blank_text (text : string) : text ≠ EmptyString → blank (Some text) = false.
Proof. by destruct text. Qed.

Lemma blank_append (h rest : string) :
  h ≠ EmptyString → blank (Some (h +:+ rest)) = false.
Proof. by destruct h. Qed.

Section DateFieldFacts.

Variable Date : Type.
Variable new_Date : string → option Date.
Variable toLocaleDateString : Date → string.
Variable toLocaleTimeString : Date → string.

(** X17: in the mode [time], a value made of hours and minutes separated by a
    colon, as the picker writes it, is shown as it is; when seconds follow,
    they are left out.  The date parser of the platform is not consulted. *)
Theorem time_is_shown_as_written (hours minutes : string) :
  colonless hours → colonless minutes →
  hours ≠ EmptyString → minutes ≠ EmptyString →
  formatValue Date new_Date toLocaleDateString toLocaleTimeString
    (hours +:+ ":" +:+ minutes) TimeMode
  = hours +:+ ":" +:+ minutes
  ∧ ∀ seconds,
      formatValue Date new_Date toLocaleDateString toLocaleTimeString
        (hours +:+ ":" +:+ minutes +:+ ":" +:+ seconds) TimeMode
      = hours +:+ ":" +:+ minutes.
Proof.
  intros Hh Hm Hhne Hmne. split; [|intros seconds];
    unfold formatValue, hours_and_minutes;
    rewrite blank_append, split_at_colon by done;
    [rewrite split_colonless by done|rewrite split_at_colon by done];
    (destruct hours; [done|]); (destruct minutes; [done|]); reflexivity.
Qed.

(** X18: a value that the platform does not read as a date is never shown in
    the mode [date], where the placeholder takes its place; in the mode
    [time] it is shown as it is when it has no colon. *)
Theorem text_that_is_no_date (value : string) :
  new_Date value = None →
  formatValue Date new_Date toLocaleDateString toLocaleTimeString value DateMode
  = "Selecione uma data"
  ∧ (value ≠ EmptyString → colonless value →
     formatValue Date new_Date toLocaleDateString toLocaleTimeString value TimeMode
     = value).
Proof.
  intros Hparse. unfold formatValue, hours_and_minutes. rewrite Hparse. split.
  - by destruct (blank (Some value)).
  - intros Hne Hc. rewrite blank_text, split_colonless by done.
    change ([value] !! 0) with (Some value). by rewrite blank_text.
Qed.

End DateFieldFacts.

Lemma time_is_shown_as_written_witness :
  formatValue () (λ _, None) (λ _, EmptyString) (λ _, EmptyString) "14:30" TimeMode
  = "14:30"
  ∧ ∀ seconds,
      formatValue () (λ _, None) (λ _, EmptyString) (λ _, EmptyString)
        ("14:30:" +:+ seconds) TimeMode
      = "14:30".
Proof.
  apply (time_is_shown_as_written () (λ _, None) (λ _, EmptyString)
           (λ _, EmptyString) "14" "30"); by repeat split.
Defined.

Lemma text_that_is_no_date_witness :
  formatValue () (λ _, None) (λ _, EmptyString) (λ _, EmptyString) "amanha" DateMode
  = "Selecione uma data"
  ∧ ("amanha" ≠ EmptyString → colonless "amanha" →
     formatValue () (λ _, None) (λ _, EmptyString) (λ _, EmptyString) "amanha" TimeMode
     = "amanha").
Proof. by apply (text_that_is_no_date () (λ _, None)). Defined.

(** ** The theme provider *)

Lemma follows_system_step (t : Theme) (ev : ThemeEvent) :
  (followSystem t = true → scheme t = getNormalizedScheme (system t)) →
  followSystem (handle t ev) = true →
  scheme (handle t ev) = getNormalizedScheme (system (handle t ev)).
Proof.
  intros Hinv. destruct ev as [colorScheme|nextScheme| |]; simpl; try done.
  unfold appearanceChanged. by destruct (followSystem t).
Qed.

(** X19: as long as the theme follows the system, it shows the scheme of the
    system: after any sequence of changes of the system and of calls of
    [setScheme], [toggleScheme] and [enableSystem], a provider whose
    [followSystem] holds has the normalized scheme of the system. *)
Theorem theme_follows_the_system (colorScheme : option Scheme) (events : list ThemeEvent) :
  followSystem (foldl handle (mountTheme colorScheme) events) = true →
  scheme (foldl handle (mountTheme colorScheme) events)
  = getNormalizedScheme (system (foldl handle (mountTheme colorScheme) events)).
Proof.
  assert (followSystem (mountTheme colorScheme) = true →
          scheme (mountTheme colorScheme)
          = getNormalizedScheme (system (mountTheme colorScheme))) as Hinv by done.
  revert Hinv. generalize (mountTheme colorScheme).
  induction events as [|ev events IH]; intros t Hinv; [done|].
  simpl. apply IH. by apply follows_system_step.
Qed.

Lemma theme_follows_the_system_witness :
  scheme (foldl handle sampleTheme sampleEvents)
  = getNormalizedScheme (system (foldl handle sampleTheme sampleEvents)).
Proof. by apply (theme_follows_the_system (Some dark) sampleEvents). Defined.

(** X20: a scheme chosen by hand stays.  After [setScheme] (and so after
    [toggleScheme]) no change of the system changes the scheme, and the
    provider no longer follows the system; toggling twice gives back the
    scheme one started with. *)
Theorem chosen_scheme_stays (nextScheme : Scheme) (t : Theme)
    (changes : list (option Scheme)) :
  scheme (foldl handle (applyScheme nextScheme t) (AppearanceChanged <$> changes))
  = nextScheme
  ∧ followSystem
      (foldl handle (applyScheme nextScheme t) (AppearanceChanged <$> changes))
    = false
  ∧ scheme (toggleScheme (toggleScheme t)) = scheme t.
Proof.
  assert (scheme (applyScheme nextScheme t) = nextScheme
          ∧ followSystem (applyScheme nextScheme t) = false) as Hinv by done.
  split_and!; [| |by destruct t as [[] ? ?]];
    revert Hinv; generalize (applyScheme nextScheme t);
    (induction changes as [|c changes IH]; intros t' [Hs Hf]; [done|]);
    simpl; apply IH; unfold appearanceChanged; by rewrite Hf.
Qed.
